(** * core-js-101, 05-objects-tasks.js: the CSS selector builder and the JSON bridge

    A shallow embedding of [src/05-objects-tasks.js].  Builder instances are
    JavaScript objects that are mutated in place and shared by reference, so
    they live in an explicit heap; methods are computations in a state and
    exception monad over that heap, in which the heap survives a [throw].

    [getJSON] and [fromJSON] call the host object JSON.  Its two functions
    are modelled after ECMA-262 on strings of 16-bit code units; the
    numbers are a parameter of that model, and IEEE 754 binary64 numbers
    are given as an instance of it. *)

From Stdlib Require Import String Ascii Bool List Arith ZArith NArith Lia.
From Stdlib Require SpecFloat.
From stdpp Require Import base list strings.
Import ListNotations.

Local Open Scope string_scope.
Local Open Scope list_scope.

(** ** The fragment of the JavaScript runtime the module relies on *)

(** Thrown values.  [Error m] is [new Error(m)]; [TypeError] is what property
    access through a reference that denotes no object raises; [SyntaxError]
    is what [JSON.parse] raises, with a message that ECMA-262 leaves to the
    implementation. *)
Inductive exn : Type :=
| Error (message : string)
| TypeError
| SyntaxError.

(** How the evaluation of a call ends. *)
Inductive completion (A : Type) : Type :=
| Normal (a : A)
| Throw (e : exn).
Arguments Normal {A} a.
Arguments Throw {A} e.

Definition is_normal {A} (c : completion A) : bool :=
  match c with Normal _ => true | Throw _ => false end.

(** JavaScript truthiness of a property that is either absent
    ([undefined]) or holds a boolean. *)
Definition truthy (p : option bool) : bool :=
  match p with Some b => b | None => false end.

(** ** class Builder *)

(** The properties of a [Builder] instance.  The constructor creates
    [hasId]; the methods read and write [hasID], a different property,
    which is absent ([None]) until [id] creates it. *)
Record Builder : Type := mkBuilder {
  selectorString : string;
  hasElement : bool;
  hasId : bool;
  hasClass : bool;
  hasAttribute : bool;
  hasPseudoClass : bool;
  hasPseudoElement : bool;
  consistenceError : string;
  numberError : string;
  hasID : option bool
}.

Definition set_selectorString (s : string) (b : Builder) : Builder :=
  mkBuilder s (hasElement b) (hasId b) (hasClass b) (hasAttribute b)
     (hasPseudoClass b) (hasPseudoElement b)
     (consistenceError b) (numberError b) (hasID b).
Definition set_hasElement (v : bool) (b : Builder) : Builder :=
  mkBuilder (selectorString b) v (hasId b) (hasClass b) (hasAttribute b)
     (hasPseudoClass b) (hasPseudoElement b)
     (consistenceError b) (numberError b) (hasID b).
Definition set_hasClass (v : bool) (b : Builder) : Builder :=
  mkBuilder (selectorString b) (hasElement b) (hasId b) v (hasAttribute b)
     (hasPseudoClass b) (hasPseudoElement b)
     (consistenceError b) (numberError b) (hasID b).
Definition set_hasAttribute (v : bool) (b : Builder) : Builder :=
  mkBuilder (selectorString b) (hasElement b) (hasId b) (hasClass b) v
     (hasPseudoClass b) (hasPseudoElement b)
     (consistenceError b) (numberError b) (hasID b).
Definition set_hasPseudoClass (v : bool) (b : Builder) : Builder :=
  mkBuilder (selectorString b) (hasElement b) (hasId b) (hasClass b)
     (hasAttribute b) v (hasPseudoElement b)
     (consistenceError b) (numberError b) (hasID b).
Definition set_hasPseudoElement (v : bool) (b : Builder) : Builder :=
  mkBuilder (selectorString b) (hasElement b) (hasId b) (hasClass b)
     (hasAttribute b) (hasPseudoClass b) v
     (consistenceError b) (numberError b) (hasID b).
Definition set_hasID (v : bool) (b : Builder) : Builder :=
  mkBuilder (selectorString b) (hasElement b) (hasId b) (hasClass b)
     (hasAttribute b) (hasPseudoClass b) (hasPseudoElement b)
     (consistenceError b) (numberError b) (Some v).

(** ** The heap and the monad of method calls *)

(** A reference is the position of the object in the heap; objects are never
    freed, and [new] puts the object at the end. *)
Abbreviation ref := nat (only parsing).
Abbreviation Heap := (list Builder) (only parsing).

Definition M (A : Type) : Type := Heap -> completion A * Heap.

Definition ret {A} (a : A) : M A := fun h => (Normal a, h).

Definition throw {A} (e : exn) : M A := fun h => (Throw e, h).

Definition bind {A B} (m : M A) (k : A -> M B) : M B :=
  fun h =>
    match m h with
    | (Normal a, h') => k a h'
    | (Throw e, h') => (Throw e, h')
    end.

Declare Scope js_scope.
Delimit Scope js_scope with js.
Notation "x <- m ;; k" := (bind m (fun x => k))
  (at level 100, m at next level, right associativity) : js_scope.
Notation "m ;;; k" := (bind m (fun _ => k))
  (at level 100, right associativity) : js_scope.

(** [this.f] for reading: all the properties of the object at [r]. *)
Definition load (r : ref) : M Builder :=
  fun h =>
    match h !! r with
    | Some b => (Normal b, h)
    | None => (Throw TypeError, h)
    end.

(** [this.f = e]: one property write on the object at [r]. *)
Definition store (r : ref) (f : Builder -> Builder) : M unit :=
  fun h =>
    match h !! r with
    | Some b => (Normal tt, <[r := f b]> h)
    | None => (Throw TypeError, h)
    end.

Module Builder.
Local Open Scope js_scope.

Definition consistenceError_text : string :=
  "Selector parts should be arranged in the following order: element, id, class, attribute, pseudo-class, pseudo-element".
Definition numberError_text : string :=
  "Element, id and pseudo-element should not occur more then one time inside the selector".

(** [constructor()]: the property values of a new instance. *)
Definition constructor : Builder :=
  {| selectorString := "";
     hasElement := false;
     hasId := false;
     hasClass := false;
     hasAttribute := false;
     hasPseudoClass := false;
     hasPseudoElement := false;
     consistenceError := consistenceError_text;
     numberError := numberError_text;
     hasID := None |}.

(** [new Builder()] *)
Definition new : M ref :=
  fun h => (Normal (List.length h), h ++ [constructor]).

(** [this.selectorString += s] *)
Definition append_text (this : ref) (s : string) : M unit :=
  store this (fun b => set_selectorString (selectorString b +:+ s) b).

Definition element (this : ref) (value : string) : M ref :=
  b <- load this ;;
  if hasElement b then throw (Error (numberError b)) else
  if truthy (hasID b) || hasClass b || hasAttribute b || hasPseudoClass b
     || hasPseudoElement b
  then throw (Error (consistenceError b)) else
  append_text this value ;;;
  store this (set_hasElement true) ;;;
  ret this.

Definition id (this : ref) (value : string) : M ref :=
  b <- load this ;;
  if truthy (hasID b) then throw (Error (numberError b)) else
  if hasClass b || hasAttribute b || hasPseudoClass b || hasPseudoElement b
  then throw (Error (consistenceError b)) else
  append_text this ("#" +:+ value) ;;;
  store this (set_hasID true) ;;;
  ret this.

Definition pseudoElement (this : ref) (value : string) : M ref :=
  b <- load this ;;
  if hasPseudoElement b then throw (Error (numberError b)) else
  append_text this ("::" +:+ value) ;;;
  store this (set_hasPseudoElement true) ;;;
  ret this.

Definition class (this : ref) (value : string) : M ref :=
  b <- load this ;;
  if hasAttribute b || hasPseudoClass b || hasPseudoElement b
  then throw (Error (consistenceError b)) else
  append_text this ("." +:+ value) ;;;
  store this (set_hasClass true) ;;;
  ret this.

Definition attr (this : ref) (value : string) : M ref :=
  b <- load this ;;
  if hasPseudoClass b || hasPseudoElement b
  then throw (Error (consistenceError b)) else
  append_text this ("[" +:+ value +:+ "]") ;;;
  store this (set_hasAttribute true) ;;;
  ret this.

Definition pseudoClass (this : ref) (value : string) : M ref :=
  b <- load this ;;
  if hasPseudoElement b then throw (Error (consistenceError b)) else
  append_text this (":" +:+ value) ;;;
  store this (set_hasPseudoClass true) ;;;
  ret this.

(** The old text of [this] and the texts of both arguments are read before
    the one write, so the arguments may alias each other or [this]. *)
Definition combine (this selector1 : ref) (combinator : string)
    (selector2 : ref) : M ref :=
  b <- load this ;;
  s1 <- load selector1 ;;
  s2 <- load selector2 ;;
  store this
    (set_selectorString
       (selectorString b +:+
          (selectorString s1 +:+ " " +:+ combinator +:+ " " +:+
             selectorString s2))) ;;;
  ret this.

Definition stringify (this : ref) : M string :=
  b <- load this ;;
  let selector := selectorString b in
  store this (set_selectorString "") ;;;
  ret selector.

End Builder.

(** ** const cssSelectorBuilder: the facade *)

Module cssSelectorBuilder.
Local Open Scope js_scope.

Definition element (value : string) : M ref :=
  cssSelector <- Builder.new ;;
  Builder.element cssSelector value.

Definition id (value : string) : M ref :=
  cssSelector <- Builder.new ;;
  Builder.id cssSelector value.

Definition class (value : string) : M ref :=
  cssSelector <- Builder.new ;;
  Builder.class cssSelector value.

Definition attr (value : string) : M ref :=
  cssSelector <- Builder.new ;;
  Builder.attr cssSelector value.

Definition pseudoClass (value : string) : M ref :=
  cssSelector <- Builder.new ;;
  Builder.pseudoClass cssSelector value.

Definition pseudoElement (value : string) : M ref :=
  cssSelector <- Builder.new ;;
  Builder.pseudoElement cssSelector value.

Definition combine (selector1 : ref) (combinator : string) (selector2 : ref)
    : M ref :=
  cssSelector <- Builder.new ;;
  Builder.combine cssSelector selector1 combinator selector2.

End cssSelectorBuilder.

(** ** Chains of append calls *)

(** The six kinds of fragment, in the order the selector grammar puts them. *)
Inductive Category : Type :=
| catElement | catId | catClass | catAttribute | catPseudoClass
| catPseudoElement.

(** One append call of a chain: which method, and its argument. *)
Definition call : Type := Category * string.

(** The method of [Builder] that appends a fragment of the category. *)
Definition method_of (c : Category) : ref -> string -> M ref :=
  match c with
  | catElement => Builder.element
  | catId => Builder.id
  | catClass => Builder.class
  | catAttribute => Builder.attr
  | catPseudoClass => Builder.pseudoClass
  | catPseudoElement => Builder.pseudoElement
  end.

(** The entry point of the facade for the category. *)
Definition facade_of (c : Category) : string -> M ref :=
  match c with
  | catElement => cssSelectorBuilder.element
  | catId => cssSelectorBuilder.id
  | catClass => cssSelectorBuilder.class
  | catAttribute => cssSelectorBuilder.attr
  | catPseudoClass => cssSelectorBuilder.pseudoClass
  | catPseudoElement => cssSelectorBuilder.pseudoElement
  end.

(** [this.m1(v1).m2(v2)...]: every method returns the object the next one is
    called on, and a [throw] leaves the chain. *)
Fixpoint appends (this : ref) (calls : list call) : M ref :=
  match calls with
  | [] => ret this
  | (c, v) :: calls' => bind (method_of c this v) (fun r => appends r calls')
  end.

(** [cssSelectorBuilder.m1(v1).m2(v2)...] *)
Definition chain (first : call) (rest : list call) : M ref :=
  bind (facade_of (fst first) (snd first)) (fun r => appends r rest).

(** [cssSelectorBuilder.m1(v1).m2(v2)....stringify()] *)
Definition chain_stringify (first : call) (rest : list call) : M string :=
  bind (chain first rest) Builder.stringify.

Definition categories (calls : list call) : list Category := map fst calls.

Definition Category_eqb (c d : Category) : bool :=
  match c, d with
  | catElement, catElement | catId, catId | catClass, catClass
  | catAttribute, catAttribute | catPseudoClass, catPseudoClass
  | catPseudoElement, catPseudoElement => true
  | _, _ => false
  end.

(** [c] is among the categories [l]. *)
Definition appended (c : Category) (l : list Category) : bool :=
  existsb (Category_eqb c) l.

(** The two error kinds of the builder, as the constructor words them. *)
Definition DuplicateError : exn := Error Builder.numberError_text.
Definition OrderError : exn := Error Builder.consistenceError_text.

(** The text each fragment stands for in a selector. *)
Definition render (cl : call) : string :=
  let (c, v) := cl in
  match c with
  | catElement => v
  | catId => "#" +:+ v
  | catClass => "." +:+ v
  | catAttribute => "[" +:+ v +:+ "]"
  | catPseudoClass => ":" +:+ v
  | catPseudoElement => "::" +:+ v
  end.

(** The renderings of the calls, concatenated in order. *)
Fixpoint rendering (calls : list call) : string :=
  match calls with
  | [] => ""
  | cl :: calls' => render cl +:+ rendering calls'
  end.

(** ** The watermark state machine of the specification *)

Module Watermark.

(** Position of the category in the order
    element < id < class < attribute < pseudoClass < pseudoElement. *)
Definition index (c : Category) : nat :=
  match c with
  | catElement => 1
  | catId => 2
  | catClass => 3
  | catAttribute => 4
  | catPseudoClass => 5
  | catPseudoElement => 6
  end.

(** The categories that occur at most once. *)
Definition at_most_one (c : Category) : bool :=
  match c with
  | catElement | catId | catPseudoElement => true
  | _ => false
  end.

(** The highest index appended so far (0 when nothing was), and a seen flag
    for each at-most-one category. *)
Record state : Type := mk {
  watermark : nat;
  seenElement : bool;
  seenId : bool;
  seenPseudoElement : bool
}.

Definition initial : state := mk 0 false false false.

Definition seen (st : state) (c : Category) : bool :=
  match c with
  | catElement => seenElement st
  | catId => seenId st
  | catPseudoElement => seenPseudoElement st
  | _ => false
  end.

(** Appending [c] is legal iff its index is at least the watermark and, for
    an at-most-one category, its seen flag is not set. *)
Definition legal (st : state) (c : Category) : bool :=
  (watermark st <=? index c)%nat && negb (at_most_one c && seen st c).

(** On success the watermark advances to the maximum and the seen flag of an
    at-most-one category is set. *)
Definition advance (st : state) (c : Category) : state :=
  mk (Nat.max (watermark st) (index c))
     (seenElement st || Category_eqb c catElement)
     (seenId st || Category_eqb c catId)
     (seenPseudoElement st || Category_eqb c catPseudoElement).

(** The machine accepts a sequence when every append is legal in turn. *)
Fixpoint accepts (st : state) (l : list Category) : bool :=
  match l with
  | [] => true
  | c :: l' => legal st c && accepts (advance st c) l'
  end.

(** No category of [l] is strictly later than [c]. *)
Definition none_later (c : Category) (l : list Category) : bool :=
  forallb (fun d => (index d <=? index c)%nat) l.

(** Some category of [l] is strictly later than [c]. *)
Definition some_later (c : Category) (l : list Category) : bool :=
  existsb (fun d => (index c <? index d)%nat) l.

(** [d] may come after [c] in a selector: it is not earlier, and it is
    strictly later when [c] is an at-most-one category. *)
Definition may_follow (c d : Category) : bool :=
  if at_most_one c then (index c <? index d)%nat
  else (index c <=? index d)%nat.

(** The sequence respects the order: every category may follow all those
    before it. *)
Fixpoint respects_order (l : list Category) : bool :=
  match l with
  | [] => true
  | c :: l' => forallb (may_follow c) l' && respects_order l'
  end.

(** The sequences of the grammar
    element? id? class* attribute* pseudoClass* pseudoElement? *)
Definition optional (present : bool) (c : Category) : list Category :=
  if present then [c] else [].

Definition in_grammar_order (e i : bool)
    (classes attributes pseudoClasses : nat) (pe : bool) : list Category :=
  optional e catElement ++ optional i catId ++ repeat catClass classes
  ++ repeat catAttribute attributes ++ repeat catPseudoClass pseudoClasses
  ++ optional pe catPseudoElement.

End Watermark.

(** ** What one append call does to the object it is called on *)

(** The error the method of category [c] throws on an object with the
    properties [b], if any: the checks of the method, in its order. *)
Definition refusal (c : Category) (b : Builder) : option exn :=
  match c with
  | catElement =>
      if hasElement b then Some (Error (numberError b))
      else if truthy (hasID b) || hasClass b || hasAttribute b
              || hasPseudoClass b || hasPseudoElement b
      then Some (Error (consistenceError b)) else None
  | catId =>
      if truthy (hasID b) then Some (Error (numberError b))
      else if hasClass b || hasAttribute b || hasPseudoClass b
              || hasPseudoElement b
      then Some (Error (consistenceError b)) else None
  | catPseudoElement =>
      if hasPseudoElement b then Some (Error (numberError b)) else None
  | catClass =>
      if hasAttribute b || hasPseudoClass b || hasPseudoElement b
      then Some (Error (consistenceError b)) else None
  | catAttribute =>
      if hasPseudoClass b || hasPseudoElement b
      then Some (Error (consistenceError b)) else None
  | catPseudoClass =>
      if hasPseudoElement b then Some (Error (consistenceError b)) else None
  end.

(** The flag the method of category [c] sets. *)
Definition mark (c : Category) : Builder -> Builder :=
  match c with
  | catElement => set_hasElement true
  | catId => set_hasID true
  | catClass => set_hasClass true
  | catAttribute => set_hasAttribute true
  | catPseudoClass => set_hasPseudoClass true
  | catPseudoElement => set_hasPseudoElement true
  end.

(** The properties after a call that does not throw. *)
Definition extended (cl : call) (b : Builder) : Builder :=
  mark (fst cl) (set_selectorString (selectorString b +:+ render cl) b).

(** The properties of an object made by the constructor, on which the
    append calls that returned had the categories [l], and whose text is
    [text]. *)
Definition flagged (l : list Category) (text : string) : Builder :=
  {| selectorString := text;
     hasElement := appended catElement l;
     hasId := false;
     hasClass := appended catClass l;
     hasAttribute := appended catAttribute l;
     hasPseudoClass := appended catPseudoClass l;
     hasPseudoElement := appended catPseudoElement l;
     consistenceError := Builder.consistenceError_text;
     numberError := Builder.numberError_text;
     hasID := if appended catId l then Some true else None |}.

(** The properties of a new object after the calls [calls], all of which
    returned. *)
Definition built (calls : list call) : Builder :=
  flagged (categories calls) (rendering calls).

(** The state the watermark machine is in after the categories [l]. *)
Definition tracked (l : list Category) : Watermark.state :=
  fold_left Watermark.advance l Watermark.initial.

(** ** Sessions: any use of the module *)

(** The calls a client can make: through the facade, or on an object that a
    previous call returned. *)
Inductive operation : Type :=
| Start (c : Category) (v : string)
| Append (this : ref) (c : Category) (v : string)
| StartCombine (selector1 : ref) (combinator : string) (selector2 : ref)
| Combine (this selector1 : ref) (combinator : string) (selector2 : ref)
| Stringify (this : ref).

(** Whether the call returned, and the heap after it. *)
Definition perform (op : operation) (h : Heap) : bool * Heap :=
  match op with
  | Start c v => let (r, h') := facade_of c v h in (is_normal r, h')
  | Append this c v => let (r, h') := method_of c this v h in (is_normal r, h')
  | StartCombine s1 k s2 =>
      let (r, h') := cssSelectorBuilder.combine s1 k s2 h in (is_normal r, h')
  | Combine this s1 k s2 =>
      let (r, h') := Builder.combine this s1 k s2 h in (is_normal r, h')
  | Stringify this =>
      let (r, h') := Builder.stringify this h in (is_normal r, h')
  end.

(** For each object of the heap, the categories of the append calls on it
    that returned, in order. *)
Abbreviation Log := (list (list Category)) (only parsing).

(** The log after the call: a call through the facade makes a new object, an
    append call that returned is added to the log of its object. *)
Definition logged (op : operation) (returned : bool) (g : Log) : Log :=
  match op with
  | Start c _ => g ++ [if returned then [c] else []]
  | Append this c _ =>
      match g !! this with
      | Some l => if returned then <[this := l ++ [c]]> g else g
      | None => g
      end
  | StartCombine _ _ _ => g ++ [[]]
  | Combine _ _ _ _ | Stringify _ => g
  end.

(** The calls in turn; one that throws is caught and the session goes on. *)
Fixpoint session (ops : list operation) (h : Heap) (g : Log) : Heap * Log :=
  match ops with
  | [] => (h, g)
  | op :: ops' =>
      let (returned, h') := perform op h in
      session ops' h' (logged op returned g)
  end.

(** The flags of every object say what its log says. *)
Definition agrees (h : Heap) (g : Log) : Prop :=
  Forall2 (fun b l => exists text, b = flagged l text) h g.

(** The machine accepts every log. *)
Definition accepted_logs (g : Log) : Prop :=
  Forall (fun l => Watermark.accepts Watermark.initial l = true) g.

(** A chain as a session: the first call through the facade, the others on
    the object [this] it returned. *)
Definition as_session (this : ref) (first : call) (rest : list call)
    : list operation :=
  Start (fst first) (snd first)
  :: map (fun cl : call => Append this (fst cl) (snd cl)) rest.

(** ** Combinations of chains *)

(** [cssSelectorBuilder.combine(left, combinator, right).stringify()] for two
    chains from the facade: the arguments are evaluated left to right, then
    the call. *)
Definition combine_chains (left : call * list call) (combinator : string)
    (right : call * list call) : M string :=
  bind (chain (fst left) (snd left)) (fun a =>
  bind (chain (fst right) (snd right)) (fun b =>
  bind (cssSelectorBuilder.combine a combinator b) Builder.stringify)).

(** [cssSelectorBuilder.combine(
       cssSelectorBuilder.element('div').id('main'), '+',
       cssSelectorBuilder.element('span')).stringify()] *)
Definition combine_example : M string :=
  combine_chains ((catElement, "div"), [(catId, "main")]) "+"
    ((catElement, "span"), []).

(** The nested combination of the documentation of the module. *)
Definition documented_combination : M string :=
  (a <- chain (catElement, "div")
          [(catId, "main"); (catClass, "container"); (catClass, "draggable")] ;;
   t <- chain (catElement, "table") [(catId, "data")] ;;
   tr <- chain (catElement, "tr") [(catPseudoClass, "nth-of-type(even)")] ;;
   td <- chain (catElement, "td") [(catPseudoClass, "nth-of-type(even)")] ;;
   inner <- cssSelectorBuilder.combine tr " " td ;;
   middle <- cssSelectorBuilder.combine t "~" inner ;;
   outer <- cssSelectorBuilder.combine a "+" middle ;;
   Builder.stringify outer)%js.

(** ** Strings of the host: sequences of 16-bit code units *)

Abbreviation jsstring := (list N) (only parsing).

(** The string whose code units are the characters of the literal. *)
Definition js (s : string) : jsstring :=
  map N_of_ascii (list_ascii_of_string s).

Fixpoint jsstring_eqb (a b : jsstring) : bool :=
  match a, b with
  | [], [] => true
  | x :: a', y :: b' => N.eqb x y && jsstring_eqb a' b'
  | _, _ => false
  end.

Definition is_digit (c : N) : bool := ((48 <=? c) && (c <=? 57))%N.

(** The number the decimal digits denote. *)
Definition decimal_value (d : jsstring) : N :=
  fold_left (fun a c => (a * 10 + (c - 48))%N) d 0%N.

(** The array index a property key denotes, if it is one: the decimal
    numeral, with no leading zero, of an integer up to 2^32 - 2. *)
Definition array_index (k : jsstring) : option N :=
  match k with
  | [] => None
  | c :: d =>
      if forallb is_digit k
         && (negb (c =? 48)%N || match d with [] => true | _ => false end)
      then if (decimal_value k <=? 4294967294)%N then Some (decimal_value k)
           else None
      else None
  end.

(** ** getJSON and fromJSON: the JSON bridge *)

Module JsonBridge.
Local Set Warnings "-register-all".

(** The values JSON text denotes, over the host's numbers [num]; the fields
    of an object are kept in the order of their keys. *)
Inductive value (num : Type) : Type :=
| VNull
| VBool (b : bool)
| VNum (n : num)
| VStr (s : jsstring)
| VArr (items : list (value num))
| VObj (fields : list (jsstring * value num)).
Arguments VNull {num}.
Arguments VBool {num} b.
Arguments VNum {num} n.
Arguments VStr {num} s.
Arguments VArr {num} items.
Arguments VObj {num} fields.

(** The host object [JSON]: [JSON.stringify] on such values, and
    [JSON.parse], which throws on text that is not JSON. *)
Class JSON (num : Type) : Type := {
  JSON_stringify : value num -> jsstring;
  JSON_parse : jsstring -> completion (value num)
}.

(** What the module needs of the host's numbers.  [Number_toString] is
    Number::toString in radix 10; [Number_ofLiteral] is the number a JSON
    number literal denotes (its mathematical value, rounded);
    [Number_ofNat] is the number of a length. *)
Class Host (num : Type) : Type := {
  Number_toString : num -> jsstring;
  Number_isFinite : num -> bool;
  Number_ofLiteral : jsstring -> num;
  Number_ofNat : nat -> num
}.

(** What a property of a prototype object holds: a function or data. *)
Inductive member (num fn : Type) : Type :=
| Method (f : fn)
| Data (v : value num).
Arguments Method {num fn} f.
Arguments Data {num fn} v.

(** The properties that can be reached through a prototype object. *)
Definition prototype (num fn : Type) : Type := list (jsstring * member num fn).

(** A parsed value with the prototype [Object.setPrototypeOf] gave it;
    [None] when it was given none. *)
Record instance (num fn : Type) : Type := mkInstance {
  own : value num;
  proto_of : option (prototype num fn)
}.
Arguments mkInstance {num fn} own proto_of.
Arguments own {num fn} i.
Arguments proto_of {num fn} i.

(** The first binding of the key. *)
Fixpoint assoc {A : Type} (k : jsstring) (l : list (jsstring * A)) : option A :=
  match l with
  | [] => None
  | (k', a) :: l' => if jsstring_eqb k k' then Some a else assoc k l'
  end.

(** [Object.setPrototypeOf(object, proto)] and the object after it: a
    [TypeError] on [null], no effect on the other primitive values. *)
Definition Object_setPrototypeOf {num fn : Type} (object : value num)
    (proto : prototype num fn) : completion (instance num fn) :=
  match object with
  | VNull => Throw TypeError
  | VObj _ | VArr _ => Normal (mkInstance object (Some proto))
  | _ => Normal (mkInstance object None)
  end.

Definition getJSON {num : Type} `{JSON num} (obj : value num) : jsstring :=
  JSON_stringify obj.

Definition fromJSON {num fn : Type} `{JSON num} (proto : prototype num fn)
    (json : jsstring) : completion (instance num fn) :=
  match JSON_parse json with
  | Throw e => Throw e
  | Normal object => Object_setPrototypeOf object proto
  end.




End JsonBridge.

(** ** The host's JSON: the grammar, JSON.stringify and JSON.parse

    The JSON grammar and the two functions as ECMA-262 defines them (The
    JSON Object; the grammar is that of ECMA-404), on the values above and
    without a replacer, an indentation or a reviver.
    The numbers are the host's: what a number literal denotes and how a
    number is written come from [Host]. *)

Module Json.
Import JsonBridge.
Local Set Warnings "-register-all".
Local Open Scope N_scope.

(** *** Characters *)

Definition is_ws (c : N) : bool :=
  (c =? 9) || (c =? 10) || (c =? 13) || (c =? 32).

Definition is_hex (c : N) : bool :=
  is_digit c || ((97 <=? c) && (c <=? 102)) || ((65 <=? c) && (c <=? 70)).

Definition hex_value (c : N) : N :=
  if is_digit c then c - 48
  else if (97 <=? c) && (c <=? 102) then c - 87
  else c - 55.

(** The lower-case hexadecimal digit of a number below 16. *)
Definition hex_digit (n : N) : N := if n <? 10 then n + 48 else n + 87.

(** The characters a backslash can be followed by, [u] apart, and the code
    unit each stands for. *)
Definition escaped (c : N) : option N :=
  if c =? 34 then Some 34        (* quotation mark *)
  else if c =? 92 then Some 92   (* reverse solidus *)
  else if c =? 47 then Some 47   (* solidus *)
  else if c =? 98 then Some 8    (* b *)
  else if c =? 102 then Some 12  (* f *)
  else if c =? 110 then Some 10  (* n *)
  else if c =? 114 then Some 13  (* r *)
  else if c =? 116 then Some 9   (* t *)
  else None.

(** A code unit that can stand for itself in a string literal. *)
Definition is_plain (c : N) : bool :=
  (32 <=? c) && negb (c =? 34) && negb (c =? 92).

(** *** The grammar *)

Definition whitespace (w : jsstring) : Prop := forallb is_ws w = true.

Definition digits (d : jsstring) : Prop :=
  d <> [] /\ forallb is_digit d = true.

Definition sign_part (s : jsstring) : Prop := s = [] \/ s = [45].

Definition int_part (s : jsstring) : Prop :=
  s = [48]
  \/ exists c d, s = c :: d /\ 49 <= c <= 57 /\ forallb is_digit d = true.

Definition frac_part (s : jsstring) : Prop :=
  s = [] \/ exists d, s = 46 :: d /\ digits d.

Definition exp_part (s : jsstring) : Prop :=
  s = []
  \/ exists e sg d,
       s = e :: sg ++ d /\ (e = 101 \/ e = 69)
       /\ (sg = [] \/ sg = [43] \/ sg = [45]) /\ digits d.

(** A number: an optional minus, an integer with no leading zero, an
    optional fraction and an optional exponent. *)
Inductive number_literal : jsstring -> Prop :=
| number_intro (sign int frac exp : jsstring) :
    sign_part sign -> int_part int -> frac_part frac -> exp_part exp ->
    number_literal (sign ++ int ++ frac ++ exp).

(** What stands between the quotation marks of a string. *)
Inductive string_characters : jsstring -> Prop :=
| chars_nil : string_characters []
| chars_plain (c : N) (s : jsstring) :
    is_plain c = true -> string_characters s -> string_characters (c :: s)
| chars_escape (c : N) (s : jsstring) :
    escaped c <> None -> string_characters s ->
    string_characters (92 :: c :: s)
| chars_unicode (a b c d : N) (s : jsstring) :
    is_hex a = true -> is_hex b = true -> is_hex c = true ->
    is_hex d = true -> string_characters s ->
    string_characters (92 :: 117 :: a :: b :: c :: d :: s).

Inductive json_value : jsstring -> Prop :=
| value_null : json_value (js "null")
| value_true : json_value (js "true")
| value_false : json_value (js "false")
| value_number (s : jsstring) : number_literal s -> json_value s
| value_string (s : jsstring) :
    string_characters s -> json_value (34 :: s ++ [34])
| value_empty_array (w : jsstring) :
    whitespace w -> json_value (91 :: w ++ [93])
| value_array (es : jsstring) :
    json_elements es -> json_value (91 :: es ++ [93])
| value_empty_object (w : jsstring) :
    whitespace w -> json_value (123 :: w ++ [125])
| value_object (ms : jsstring) :
    json_members ms -> json_value (123 :: ms ++ [125])
with json_elements : jsstring -> Prop :=
| elements_last (w1 v w2 : jsstring) :
    whitespace w1 -> json_value v -> whitespace w2 ->
    json_elements (w1 ++ v ++ w2)
| elements_more (w1 v w2 es : jsstring) :
    whitespace w1 -> json_value v -> whitespace w2 -> json_elements es ->
    json_elements (w1 ++ v ++ w2 ++ 44 :: es)
with json_members : jsstring -> Prop :=
| members_last (w1 k w2 w3 v w4 : jsstring) :
    whitespace w1 -> string_characters k -> whitespace w2 ->
    whitespace w3 -> json_value v -> whitespace w4 ->
    json_members (w1 ++ 34 :: k ++ 34 :: w2 ++ 58 :: w3 ++ v ++ w4)
| members_more (w1 k w2 w3 v w4 ms : jsstring) :
    whitespace w1 -> string_characters k -> whitespace w2 ->
    whitespace w3 -> json_value v -> whitespace w4 -> json_members ms ->
    json_members
      (w1 ++ 34 :: k ++ 34 :: w2 ++ 58 :: w3 ++ v ++ w4 ++ 44 :: ms).

(** A JSON text: one value, with white space around it. *)
Definition valid_json (text : jsstring) : Prop :=
  exists w1 v w2,
    text = w1 ++ v ++ w2 /\ whitespace w1 /\ json_value v /\ whitespace w2.

(** *** Objects as JSON.parse and JSON.stringify see them *)

(** The keys of an ordinary object come in this order: the array indices,
    ascending, then the other keys as they were created. *)
Fixpoint replace {A : Type} (k : jsstring) (a : A) (l : list (jsstring * A))
    : list (jsstring * A) :=
  match l with
  | [] => []
  | (k', a') :: l' =>
      if jsstring_eqb k k' then (k', a) :: l' else (k', a') :: replace k a l'
  end.

(** The place of a new key that is the array index [i]: before the first
    key that is no array index or a greater one. *)
Fixpoint insert_index {A : Type} (i : N) (k : jsstring) (a : A)
    (l : list (jsstring * A)) : list (jsstring * A) :=
  match l with
  | [] => [(k, a)]
  | (k', a') :: l' =>
      match array_index k' with
      | Some j =>
          if j <? i then (k', a') :: insert_index i k a l'
          else (k, a) :: l
      | None => (k, a) :: l
      end
  end.

(** CreateDataProperty on an ordinary object: the value of a key that
    exists is replaced where it is, a new key takes its place in the
    order. *)
Definition define {A : Type} (k : jsstring) (a : A) (l : list (jsstring * A))
    : list (jsstring * A) :=
  match assoc k l with
  | Some _ => replace k a l
  | None =>
      match array_index k with
      | Some i => insert_index i k a l
      | None => l ++ [(k, a)]
      end
  end.

(** The object that defining the members in turn makes. *)
Definition object_of {A : Type} (members : list (jsstring * A))
    : list (jsstring * A) :=
  fold_left (fun o m => define (fst m) (snd m) o) members [].


(** *** What the proofs of the parser speak of *)

(** The text that follows does not go on with a digit. *)
Definition no_digit_ahead (r : jsstring) : Prop :=
  match r with [] => True | c :: _ => is_digit c = false end.

(** The text that follows does not go on the number before it. *)
Definition ends_number (r : jsstring) : Prop :=
  match r with
  | [] => True
  | c :: _ => is_digit c = false /\ c <> 46 /\ c <> 101 /\ c <> 69
  end.


(** The text of a value starts with a character that is not white space
    and closes neither an array nor an object. *)
Definition starts_value (c : N) : Prop :=
  is_ws c = false /\ c <> 93 /\ c <> 125.

Section WithHost.
Context {num : Type} `{Host num}.

(** *** JSON.stringify *)

Definition is_lead (c : N) : bool := (55296 <=? c) && (c <=? 56319).
Definition is_trail (c : N) : bool := (56320 <=? c) && (c <=? 57343).

(** UnicodeEscape: a backslash, [u] and four lower-case hexadecimal
    digits. *)
Definition unicode_escape (c : N) : jsstring :=
  [92; 117; hex_digit (c / 4096); hex_digit ((c / 256) mod 16);
   hex_digit ((c / 16) mod 16); hex_digit (c mod 16)].

(** One code unit that is not half of a surrogate pair. *)
Definition quote_unit (c : N) : jsstring :=
  if c =? 8 then [92; 98]
  else if c =? 9 then [92; 116]
  else if c =? 10 then [92; 110]
  else if c =? 12 then [92; 102]
  else if c =? 13 then [92; 114]
  else if c =? 34 then [92; 34]
  else if c =? 92 then [92; 92]
  else if (c <? 32) || is_lead c || is_trail c then unicode_escape c
  else [c].

(** The code points of the string, each written as QuoteJSONString
    writes it: a surrogate pair stands for itself, a lone surrogate is
    escaped. *)
Fixpoint quote_units (s : jsstring) : jsstring :=
  match s with
  | [] => []
  | c :: s' =>
      match s' with
      | d :: s'' =>
          if is_lead c && is_trail d then c :: d :: quote_units s''
          else quote_unit c ++ quote_units s'
      | [] => quote_unit c
      end
  end.

(** QuoteJSONString *)
Definition quote (s : jsstring) : jsstring := 34 :: quote_units s ++ [34].

(** The parts, with a comma between two of them. *)
Fixpoint join (parts : list jsstring) : jsstring :=
  match parts with
  | [] => []
  | [p] => p
  | p :: parts' => p ++ 44 :: join parts'
  end.

(** SerializeJSONProperty, with the empty gap. *)
Fixpoint stringify (v : value num) : jsstring :=
  match v with
  | VNull => js "null"
  | VBool true => js "true"
  | VBool false => js "false"
  | VNum n => if Number_isFinite n then Number_toString n else js "null"
  | VStr s => quote s
  | VArr items => 91 :: join (map stringify items) ++ [93]
  | VObj fields =>
      123 :: join (map (fun f => quote (fst f) ++ 58 :: stringify (snd f))
                     fields) ++ [125]
  end.

(** *** JSON.parse *)

Fixpoint skip_ws (s : jsstring) : jsstring :=
  match s with
  | c :: s' => if is_ws c then skip_ws s' else s
  | [] => []
  end.

(** The longest prefix of digits, and the rest. *)
Fixpoint span_digits (s : jsstring) : jsstring * jsstring :=
  match s with
  | c :: s' =>
      if is_digit c then let (d, r) := span_digits s' in (c :: d, r)
      else ([], s)
  | [] => ([], [])
  end.

Definition scan_sign (s : jsstring) : jsstring * jsstring :=
  match s with
  | c :: s' => if c =? 45 then ([45], s') else ([], s)
  | [] => ([], s)
  end.

Definition scan_int (s : jsstring) : option (jsstring * jsstring) :=
  match s with
  | c :: s' =>
      if c =? 48 then Some ([48], s')
      else if (49 <=? c) && (c <=? 57)
      then let (d, r) := span_digits s' in Some (c :: d, r)
      else None
  | [] => None
  end.

Definition scan_frac (s : jsstring) : jsstring * jsstring :=
  match s with
  | c :: s' =>
      if c =? 46
      then match span_digits s' with
           | ([], _) => ([], s)
           | (d, r) => (46 :: d, r)
           end
      else ([], s)
  | [] => ([], s)
  end.

Definition scan_exp_sign (s : jsstring) : jsstring * jsstring :=
  match s with
  | c :: s' => if (c =? 43) || (c =? 45) then ([c], s') else ([], s)
  | [] => ([], s)
  end.

Definition scan_exp (s : jsstring) : jsstring * jsstring :=
  match s with
  | e :: s' =>
      if (e =? 101) || (e =? 69)
      then let (sg, s'') := scan_exp_sign s' in
           match span_digits s'' with
           | ([], _) => ([], s)
           | (d, r) => (e :: sg ++ d, r)
           end
      else ([], s)
  | [] => ([], s)
  end.

(** The number literal the text starts with, and the rest of the text. *)
Definition scan_number (s : jsstring) : option (jsstring * jsstring) :=
  let (sg, s1) := scan_sign s in
  match scan_int s1 with
  | Some (i, s2) =>
      let (f, s3) := scan_frac s2 in
      let (e, s4) := scan_exp s3 in
      Some (sg ++ i ++ f ++ e, s4)
  | None => None
  end.

(** After the opening quotation mark: the string the literal denotes, and
    the text after the closing quotation mark. *)
Fixpoint scan_string (s : jsstring) : option (jsstring * jsstring) :=
  match s with
  | [] => None
  | c :: s' =>
      if c =? 34 then Some ([], s')
      else if c =? 92 then
        match s' with
        | [] => None
        | e :: s'' =>
            if e =? 117 then
              match s'' with
              | a :: b :: c' :: d :: s3 =>
                  if is_hex a && is_hex b && is_hex c' && is_hex d
                  then match scan_string s3 with
                       | Some (str, r) =>
                           Some (((hex_value a * 16 + hex_value b) * 16
                                  + hex_value c') * 16 + hex_value d :: str,
                                 r)
                       | None => None
                       end
                  else None
              | _ => None
              end
            else
              match escaped e with
              | Some u =>
                  match scan_string s'' with
                  | Some (str, r) => Some (u :: str, r)
                  | None => None
                  end
              | None => None
              end
        end
      else if 32 <=? c then
        match scan_string s' with
        | Some (str, r) => Some (c :: str, r)
        | None => None
        end
      else None
  end.

(** [s] without the prefix [p], when it starts with it. *)
Fixpoint after_prefix (p s : jsstring) : option jsstring :=
  match p, s with
  | [], _ => Some s
  | a :: p', b :: s' => if a =? b then after_prefix p' s' else None
  | _, _ => None
  end.

(** The value the text starts with, after white space, and the rest of the
    text; [parse_elements] is for what follows the bracket of an array that
    is not empty, [parse_members] for what follows the brace of an object
    that is not empty.  The fuel bounds the depth of the calls. *)
Fixpoint parse_value (fuel : nat) (s : jsstring)
    : option (value num * jsstring) :=
  match fuel with
  | O => None
  | S fuel' =>
      match skip_ws s with
      | [] => None
      | c :: s' =>
          if c =? 110 then
            option_map (pair VNull) (after_prefix (js "ull") s')
          else if c =? 116 then
            option_map (pair (VBool true)) (after_prefix (js "rue") s')
          else if c =? 102 then
            option_map (pair (VBool false)) (after_prefix (js "alse") s')
          else if c =? 34 then
            match scan_string s' with
            | Some (str, r) => Some (VStr str, r)
            | None => None
            end
          else if c =? 91 then
            match after_prefix [93] (skip_ws s') with
            | Some r => Some (VArr [], r)
            | None =>
                match parse_elements fuel' s' with
                | Some (items, r) => Some (VArr items, r)
                | None => None
                end
            end
          else if c =? 123 then
            match after_prefix [125] (skip_ws s') with
            | Some r => Some (VObj [], r)
            | None =>
                match parse_members fuel' s' with
                | Some (members, r) => Some (VObj (object_of members), r)
                | None => None
                end
            end
          else
            match scan_number (c :: s') with
            | Some (lexeme, r) => Some (VNum (Number_ofLiteral lexeme), r)
            | None => None
            end
      end
  end
with parse_elements (fuel : nat) (s : jsstring)
    : option (list (value num) * jsstring) :=
  match fuel with
  | O => None
  | S fuel' =>
      match parse_value fuel' s with
      | Some (v, r) =>
          match skip_ws r with
          | c :: r' =>
              if c =? 93 then Some ([v], r')
              else if c =? 44 then
                match parse_elements fuel' r' with
                | Some (vs, r'') => Some (v :: vs, r'')
                | None => None
                end
              else None
          | [] => None
          end
      | None => None
      end
  end
with parse_members (fuel : nat) (s : jsstring)
    : option (list (jsstring * value num) * jsstring) :=
  match fuel with
  | O => None
  | S fuel' =>
      match after_prefix [34] (skip_ws s) with
      | Some s0 =>
          match scan_string s0 with
          | Some (k, r1) =>
              match after_prefix [58] (skip_ws r1) with
              | Some r2 =>
                  match parse_value fuel' r2 with
                  | Some (v, r3) =>
                      match skip_ws r3 with
                      | c :: r4 =>
                          if c =? 125 then Some ([(k, v)], r4)
                          else if c =? 44 then
                            match parse_members fuel' r4 with
                            | Some (ms, r5) => Some ((k, v) :: ms, r5)
                            | None => None
                            end
                          else None
                      | [] => None
                      end
                  | None => None
                  end
              | None => None
              end
          | None => None
          end
      | None => None
      end
  end.

(** JSON.parse(text): the whole text must be one value with white space
    around it; anything else is a SyntaxError. *)
Definition parse (text : jsstring) : completion (value num) :=
  match parse_value (S (List.length text)) text with
  | Some (v, r) =>
      match skip_ws r with
      | [] => Normal v
      | _ => Throw SyntaxError
      end
  | None => Throw SyntaxError
  end.

(** The host's JSON object. *)
#[export] Instance host_JSON : JSON num := {|
  JSON_stringify := stringify;
  JSON_parse := parse
|}.

(** *** Values that JSON represents *)





End WithHost.
End Json.

(** ** The host's numbers: IEEE 754 binary64

    Number values as [spec_float] with 53 bits of precision.  What a
    decimal literal denotes is the double nearest to its mathematical
    value, ties to even (ECMA-262, The Number Type and StringToNumber), and
    Number::toString writes the fewest digits that denote the number
    again. *)

Module Binary64.
Import JsonBridge Json SpecFloat.
Local Open Scope Z_scope.

Definition prec : Z := 53.
Definition emax : Z := 1024.

(** The double nearest to [m * 10^e], with the sign [neg].  A negative
    exponent makes a quotient: it is taken with at least 55 bits, and what
    is left of the division says on which side of the middle the value
    is. *)
Definition of_decimal (neg : bool) (m : N) (e : Z) : spec_float :=
  match m with
  | N0 => S754_zero neg
  | Npos p =>
      if 0 <=? e then
        binary_normalize prec emax
          (if neg then - (Zpos p * 10 ^ e) else Zpos p * 10 ^ e) 0 neg
      else
        let d := 10 ^ (- e) in
        let k := Z.max 0 (Z.log2 d + 56 - Z.log2 (Zpos p)) in
        let n := Zpos p * 2 ^ k in
        let r := n mod d in
        binary_round_aux prec emax neg (n / d) (- k)
          (if r =? 0 then loc_Exact else loc_Inexact (2 * r ?= d))
  end.

(** The number that a number literal of JSON denotes: its digits, and its
    exponent less the length of its fraction. *)
Definition of_literal (lexeme : jsstring) : spec_float :=
  let (sg, s1) := scan_sign lexeme in
  let (i, s2) := span_digits s1 in
  let (f, s3) :=
    match after_prefix [46%N] s2 with
    | Some t => span_digits t
    | None => ([], s2)
    end in
  let x :=
    match s3 with
    | _ :: t =>
        let (sg', t') := scan_exp_sign t in
        let (d, _) := span_digits t' in
        if jsstring_eqb sg' [45%N] then - Z.of_N (decimal_value d)
        else Z.of_N (decimal_value d)
    | [] => 0
    end in
  of_decimal (negb (jsstring_eqb sg [])) (decimal_value (i ++ f))
    (x - Z.of_nat (List.length f)).

Definition same_float (a b : spec_float) : bool :=
  match a, b with
  | S754_zero s, S754_zero s' => Bool.eqb s s'
  | S754_infinity s, S754_infinity s' => Bool.eqb s s'
  | S754_nan, S754_nan => true
  | S754_finite s m e, S754_finite s' m' e' =>
      Bool.eqb s s' && (m =? m')%positive && (e =? e')
  | _, _ => false
  end.

(** [m * 2^e / 10^q] as a fraction of two positive integers. *)
Definition scaled (m : positive) (e q : Z) : Z * Z :=
  (Zpos m * (if 0 <=? e then 2 ^ e else 1)
   * (if q <=? 0 then 10 ^ (- q) else 1),
   (if 0 <=? e then 1 else 2 ^ (- e)) * (if q <=? 0 then 1 else 10 ^ q)).

(** The [n] with [10^(n-1) <= m * 2^e < 10^n], looked for around what the
    binary logarithm says. *)
Definition decimal_exponent (m : positive) (e : Z) : Z :=
  let guess := (Z.log2 (Zpos m) + e) * 30103 / 100000 in
  let fits n :=
    let (a, b) := scaled m e (n - 1) in (b <=? a) && (a <? 10 * b) in
  if fits (guess - 1) then guess - 1
  else if fits guess then guess
  else if fits (guess + 1) then guess + 1
  else if fits (guess + 2) then guess + 2
  else guess + 3.

(** The digits [s] and the exponent [n] of Number::toString for the
    positive double [m * 2^e]: with [k] digits, from [k] on, the integer
    below and the integer above [m * 2^e / 10^(n-k)] are tried; the nearer
    of those that denote the double again is taken, the even one of two
    that are as near. *)
Fixpoint shortest (fuel : nat) (k : Z) (m : positive) (e n : Z) : Z * Z :=
  let (a, b) := scaled m e (n - k) in
  let lo := a / b in
  let r := a mod b in
  let x := S754_finite false m e in
  let lo_ok := same_float (of_decimal false (Z.to_N lo) (n - k)) x in
  let hi_ok := same_float (of_decimal false (Z.to_N (lo + 1)) (n - k)) x in
  let s :=
    if r =? 0 then Some lo
    else if lo_ok && hi_ok then
      match 2 * r ?= b with
      | Lt => Some lo
      | Gt => Some (lo + 1)
      | Eq => Some (if Z.even lo then lo else lo + 1)
      end
    else if lo_ok then Some lo
    else if hi_ok then Some (lo + 1)
    else None in
  match s, fuel with
  | Some s, _ => if s =? 10 ^ k then (s / 10, n + 1) else (s, n)
  | None, S fuel' => shortest fuel' (k + 1) m e n
  | None, O => (lo, n)
  end.

Fixpoint uint_units (d : Decimal.uint) : jsstring :=
  match d with
  | Decimal.Nil => []
  | Decimal.D0 d' => 48%N :: uint_units d'
  | Decimal.D1 d' => 49%N :: uint_units d'
  | Decimal.D2 d' => 50%N :: uint_units d'
  | Decimal.D3 d' => 51%N :: uint_units d'
  | Decimal.D4 d' => 52%N :: uint_units d'
  | Decimal.D5 d' => 53%N :: uint_units d'
  | Decimal.D6 d' => 54%N :: uint_units d'
  | Decimal.D7 d' => 55%N :: uint_units d'
  | Decimal.D8 d' => 56%N :: uint_units d'
  | Decimal.D9 d' => 57%N :: uint_units d'
  end.

(** The decimal numeral of a natural number. *)
Definition numeral (n : Z) : jsstring := uint_units (N.to_uint (Z.to_N n)).

Definition zeros (n : Z) : jsstring := repeat 48%N (Z.to_nat n).

(** Number::toString on the digits [s] and the exponent [n]. *)
Definition layout (s n : Z) : jsstring :=
  let d := numeral s in
  let k := Z.of_nat (List.length d) in
  if (k <=? n) && (n <=? 21) then d ++ zeros (n - k)
  else if (0 <? n) && (n <=? 21) then
    firstn (Z.to_nat n) d ++ 46%N :: skipn (Z.to_nat n) d
  else if (-6 <? n) && (n <=? 0) then
    48%N :: 46%N :: zeros (- n) ++ d
  else
    let x :=
      (if 0 <=? n - 1 then 43%N else 45%N) :: numeral (Z.abs (n - 1)) in
    match d with
    | [c] => c :: 101%N :: x
    | c :: d' => c :: 46%N :: d' ++ 101%N :: x
    | [] => []
    end.

(** Number::toString, radix 10. *)
Definition to_string (x : spec_float) : jsstring :=
  match x with
  | S754_nan => js "NaN"
  | S754_zero _ => js "0"
  | S754_infinity s => if s then js "-Infinity" else js "Infinity"
  | S754_finite s m e =>
      let (d, n) := shortest 17 1 m e (decimal_exponent m e) in
      if s then 45%N :: layout d n else layout d n
  end.

Definition is_finite (x : spec_float) : bool :=
  match x with
  | S754_zero _ | S754_finite _ _ _ => true
  | _ => false
  end.

Definition of_nat (n : nat) : spec_float :=
  binary_normalize prec emax (Z.of_nat n) 0 false.


#[export] Instance binary64 : Host spec_float := {|
  Number_toString := to_string;
  Number_isFinite := is_finite;
  Number_ofLiteral := of_literal;
  Number_ofNat := of_nat
|}.

End Binary64.

(** ** Further scripts over the builder *)

(** The flag of the category, as the methods read it. *)
Definition flag (c : Category) (b : Builder) : bool :=
  match c with
  | catElement => hasElement b
  | catId => truthy (hasID b)
  | catClass => hasClass b
  | catAttribute => hasAttribute b
  | catPseudoClass => hasPseudoClass b
  | catPseudoElement => hasPseudoElement b
  end.

(** [combine(a, k1, combine(b, k2, c)).stringify()] through the facade; the
    arguments are objects that exist already. *)
Definition combine_right (a : ref) (k1 : string) (b : ref) (k2 : string)
    (c : ref) : M string :=
  (inner <- cssSelectorBuilder.combine b k2 c ;;
   outer <- cssSelectorBuilder.combine a k1 inner ;;
   Builder.stringify outer)%js.

(** [combine(combine(a, k1, b), k2, c).stringify()] *)
Definition combine_left (a : ref) (k1 : string) (b : ref) (k2 : string)
    (c : ref) : M string :=
  (inner <- cssSelectorBuilder.combine a k1 b ;;
   outer <- cssSelectorBuilder.combine inner k2 c ;;
   Builder.stringify outer)%js.

(** [combine(a, k, b).m(v).stringify()]: an append on the result of a
    combination. *)
Definition combine_then_append (a : ref) (k : string) (b : ref)
    (c : Category) (v : string) : M string :=
  (r <- cssSelectorBuilder.combine a k b ;;
   r' <- method_of c r v ;;
   Builder.stringify r')%js.

(** [a.stringify(); combine(a, k, b).stringify()] *)
Definition stringify_then_combine (a : ref) (k : string) (b : ref)
    : M string :=
  (_ <- Builder.stringify a ;;
   r <- cssSelectorBuilder.combine a k b ;;
   Builder.stringify r)%js.

(** ** function Rectangle *)

Module Rectangle.
Section Numbers.

(** The host's numbers, their product, and [NaN], which a product with an
    absent operand evaluates to. *)
Variable number : Type.
Variable times : number -> number -> number.
Variable NaN : number.

(** The arrow function [() => this.width * this.height], with the [this] of
    the constructor call that created it. *)
Inductive closure : Type :=
| AreaOf (this : ref).

(** The properties of an object; [None] is an absent property. *)
Record object : Type := mk {
  width : option number;
  height : option number;
  getArea : option closure
}.

Definition set_width (v : number) (o : object) : object :=
  mk (Some v) (height o) (getArea o).
Definition set_height (v : number) (o : object) : object :=
  mk (width o) (Some v) (getArea o).
Definition set_getArea (f : option closure) (o : object) : object :=
  mk (width o) (height o) f.

(** [r.p = v] on the object at [r]. *)
Definition write (r : ref) (f : object -> object) (h : list object)
    : list object :=
  alter f r h.

(** [new Rectangle(width, height)]: a new object with no property, the three
    writes of the body, and the object as the result. *)
Definition new (w h : number) (hp : list object) : ref * list object :=
  let this := List.length hp in
  let hp0 := hp ++ [mk None None None] in
  let hp1 := write this (set_width w) hp0 in
  let hp2 := write this (set_height h) hp1 in
  let hp3 := write this (set_getArea (Some (AreaOf this))) hp2 in
  (this, hp3).

(** [this.width * this.height] on the object at [this]. *)
Definition area (this : ref) (hp : list object) : option number :=
  match hp !! this with
  | Some o =>
      match width o, height o with
      | Some w, Some h => Some (times w h)
      | _, _ => Some NaN
      end
  | None => None
  end.

(** [r.getArea()]: the function found at the property is called; [None] when
    there is no object or no function to call. *)
Definition call_getArea (r : ref) (hp : list object) : option number :=
  match hp !! r with
  | Some o =>
      match getArea o with
      | Some (AreaOf this) => area this hp
      | None => None
      end
  | None => None
  end.

(** [target.getArea = source.getArea]; nothing is written when [source]
    denotes no object. *)
Definition borrow_getArea (target source : ref) (hp : list object)
    : list object :=
  match hp !! source with
  | Some o => write target (set_getArea (getArea o)) hp
  | None => hp
  end.

End Numbers.
End Rectangle.

(** * Properties *)

(** ** The monad *)

Lemma load_Some (r : ref) (h : Heap) (b : Builder) :
  h !! r = Some b -> load r h = (Normal b, h).
Proof. intros H. unfold load. now rewrite H. Qed.

Lemma store_Some (r : ref) (f : Builder -> Builder) (h : Heap) (b : Builder) :
  h !! r = Some b -> store r f h = (Normal tt, <[r := f b]> h).
Proof. intros H. unfold store. now rewrite H. Qed.

Lemma lookup_store (r : ref) (x : Builder) (h : Heap) (b : Builder) :
  h !! r = Some b -> <[r := x]> h !! r = Some x.
Proof.
  intros H. apply list_lookup_insert_eq. eapply lookup_lt_Some, H.
Qed.

(** ** The methods, call by call *)

(** A method that throws does so before its first write; one that does not
    appends the rendering, sets its flag and returns [this]. *)
Lemma method_of_spec (c : Category) (this : ref) (v : string) (h : Heap)
    (b : Builder) :
  h !! this = Some b ->
  method_of c this v h =
    match refusal c b with
    | Some e => (Throw e, h)
    | None => (Normal this, <[this := extended (c, v) b]> h)
    end.
Proof.
  intros H.
  assert (W : forall s f,
    bind (Builder.append_text this s)
         (fun _ => bind (store this f) (fun _ => ret this)) h
    = (Normal this,
       <[this := f (set_selectorString (selectorString b +:+ s) b)]> h)).
  { intros s f. unfold Builder.append_text, bind at 1.
    rewrite (store_Some _ _ h b H). unfold bind.
    rewrite (store_Some _ f _ _ (lookup_store _ _ _ _ H)).
    now rewrite list_insert_insert_eq. }
  destruct c; simpl;
    unfold Builder.element, Builder.id, Builder.class, Builder.attr,
      Builder.pseudoClass, Builder.pseudoElement;
    unfold bind at 1; rewrite (load_Some _ _ _ H);
    repeat match goal with
    | |- context [if ?g then _ else _] => destruct g eqn:?
    end; try reflexivity; apply W.
Qed.

(** ** Text *)

Lemma append_nil_r (s : string) : s +:+ "" = s.
Proof.
  induction s as [|a s IH]; [reflexivity|].
  change (String a s +:+ "") with (String a (s +:+ "")). now rewrite IH.
Qed.

Lemma append_assoc (s1 s2 s3 : string) :
  (s1 +:+ s2) +:+ s3 = s1 +:+ (s2 +:+ s3).
Proof.
  induction s1 as [|a s1 IH]; [reflexivity|].
  change (String a (s1 +:+ s2) +:+ s3 = String a (s1 +:+ (s2 +:+ s3))).
  change (String a ((s1 +:+ s2) +:+ s3) = String a (s1 +:+ (s2 +:+ s3))).
  now rewrite IH.
Qed.

Lemma rendering_snoc (calls : list call) (cl : call) :
  rendering (calls ++ [cl]) = rendering calls +:+ render cl.
Proof.
  induction calls as [|x calls IH]; cbn [rendering app].
  - now rewrite append_nil_r.
  - now rewrite IH, append_assoc.
Qed.

(** ** Categories that were appended *)

Lemma categories_snoc (calls : list call) (c : Category) (v : string) :
  categories (calls ++ [(c, v)]) = categories calls ++ [c].
Proof. unfold categories. now rewrite map_app. Qed.

Lemma appended_snoc (d : Category) (l : list Category) (c : Category) :
  appended d (l ++ [c]) = appended d l || Category_eqb d c.
Proof. unfold appended. rewrite existsb_app. cbn. now rewrite orb_false_r. Qed.

Lemma Category_eqb_eq (c d : Category) : Category_eqb c d = true <-> c = d.
Proof. destruct c, d; cbn; split; congruence. Qed.

Lemma appended_In (c : Category) (l : list Category) :
  appended c l = true <-> In c l.
Proof.
  unfold appended. rewrite existsb_exists. split.
  - intros (d & Hd & E). apply Category_eqb_eq in E. now subst.
  - intros H. exists c. split; [assumption|]. now apply Category_eqb_eq.
Qed.

Lemma none_later_some_later (c : Category) (l : list Category) :
  Watermark.none_later c l = negb (Watermark.some_later c l).
Proof.
  unfold Watermark.none_later, Watermark.some_later.
  induction l as [|d l IH]; [reflexivity|]. cbn [forallb existsb].
  rewrite IH, negb_orb. f_equal.
  destruct (Nat.leb_spec (Watermark.index d) (Watermark.index c)),
    (Nat.ltb_spec (Watermark.index c) (Watermark.index d));
    try reflexivity; lia.
Qed.

Lemma none_later_spec (c : Category) (l : list Category) :
  Watermark.none_later c l = true
  <-> forall d, In d l -> Watermark.index d <= Watermark.index c.
Proof.
  unfold Watermark.none_later. rewrite forallb_forall.
  split; intros H d Hd; specialize (H d Hd).
  - now apply Nat.leb_le.
  - now apply Nat.leb_le.
Qed.

Lemma some_later_spec (c : Category) (l : list Category) :
  Watermark.some_later c l = true
  <-> exists d, In d l /\ Watermark.index c < Watermark.index d.
Proof.
  unfold Watermark.some_later. rewrite existsb_exists.
  split; intros (d & Hd & L); exists d; split; try assumption.
  - now apply Nat.ltb_lt.
  - now apply Nat.ltb_lt.
Qed.

(** Case analysis on every flag of the goal. *)
Ltac case_appended :=
  repeat match goal with
  | |- context [appended ?d ?l] => destruct (appended d l)
  end.

(** The later categories, one by one: what the disjunctions of flags in the
    methods compute. *)
Lemma some_later_flags (c : Category) (l : list Category) :
  Watermark.some_later c l =
    match c with
    | catElement =>
        appended catId l || appended catClass l || appended catAttribute l
        || appended catPseudoClass l || appended catPseudoElement l
    | catId =>
        appended catClass l || appended catAttribute l
        || appended catPseudoClass l || appended catPseudoElement l
    | catClass =>
        appended catAttribute l || appended catPseudoClass l
        || appended catPseudoElement l
    | catAttribute => appended catPseudoClass l || appended catPseudoElement l
    | catPseudoClass => appended catPseudoElement l
    | catPseudoElement => false
    end.
Proof.
  unfold Watermark.some_later, appended.
  induction l as [|d l IH]; [now destruct c|].
  cbn [existsb]. rewrite IH. clear IH.
  destruct c, d; cbn;
    repeat match goal with
    | |- context [existsb ?f l] => destruct (existsb f l)
    end; reflexivity.
Qed.

(** ** The flags against the watermark machine *)

Lemma tracked_snoc (l : list Category) (c : Category) :
  tracked (l ++ [c]) = Watermark.advance (tracked l) c.
Proof. unfold tracked. now rewrite fold_left_app. Qed.

Lemma tracked_watermark (l : list Category) (c : Category) :
  (Watermark.watermark (tracked l) <=? Watermark.index c)%nat
  = Watermark.none_later c l.
Proof.
  induction l as [|d l IH] using rev_ind; [reflexivity|].
  rewrite tracked_snoc. unfold Watermark.none_later in *.
  rewrite forallb_app, <- IH. cbn. rewrite andb_true_r.
  destruct (Nat.leb_spec (Watermark.watermark (tracked l)) (Watermark.index c)),
    (Nat.leb_spec (Watermark.index d) (Watermark.index c)),
    (Nat.leb_spec (Nat.max (Watermark.watermark (tracked l)) (Watermark.index d))
       (Watermark.index c)); try reflexivity; lia.
Qed.

Lemma tracked_seen (l : list Category) (c : Category) :
  Watermark.at_most_one c = true ->
  Watermark.seen (tracked l) c = appended c l.
Proof.
  intros Hc. induction l as [|d l IH] using rev_ind; [now destruct c|].
  rewrite tracked_snoc, appended_snoc, <- IH.
  destruct c, d; try discriminate; cbn; now rewrite ?orb_false_r.
Qed.

(** The legality test of the machine, in terms of what was appended. *)
Lemma legal_tracked (l : list Category) (c : Category) :
  Watermark.legal (tracked l) c
  = Watermark.none_later c l && negb (Watermark.at_most_one c && appended c l).
Proof.
  unfold Watermark.legal. rewrite tracked_watermark.
  destruct (Watermark.at_most_one c) eqn:E; [|reflexivity].
  now rewrite tracked_seen.
Qed.

(** The checks of the methods, in terms of what was appended. *)
Lemma refusal_flagged (l : list Category) (text : string) (c : Category) :
  refusal c (flagged l text) =
    if Watermark.at_most_one c && appended c l then Some DuplicateError
    else if Watermark.some_later c l then Some OrderError
    else None.
Proof.
  rewrite some_later_flags. unfold flagged, DuplicateError, OrderError.
  destruct c; cbn; case_appended; reflexivity.
Qed.

Lemma refusal_legal (l : list Category) (text : string) (c : Category) :
  Watermark.legal (tracked l) c
  = match refusal c (flagged l text) with Some _ => false | None => true end.
Proof.
  rewrite legal_tracked, refusal_flagged, none_later_some_later.
  destruct (Watermark.at_most_one c && appended c l),
    (Watermark.some_later c l); reflexivity.
Qed.

Lemma extended_flagged (l : list Category) (text : string) (c : Category)
    (v : string) :
  extended (c, v) (flagged l text)
  = flagged (l ++ [c]) (text +:+ render (c, v)).
Proof.
  unfold extended, flagged. cbn [fst].
  destruct c; cbn; rewrite !appended_snoc; cbn; rewrite ?orb_false_r,
    ?orb_true_r; reflexivity.
Qed.

Lemma built_snoc (calls : list call) (c : Category) (v : string) :
  built (calls ++ [(c, v)])
  = flagged (categories calls ++ [c]) (rendering calls +:+ render (c, v)).
Proof. unfold built. now rewrite rendering_snoc, categories_snoc. Qed.

(** ** Chains *)

Lemma facade_of_new (c : Category) (v : string) :
  facade_of c v = bind Builder.new (fun r => method_of c r v).
Proof. now destruct c. Qed.

Lemma new_spec (h : Heap) :
  Builder.new h = (Normal (List.length h), h ++ [built []]).
Proof. reflexivity. Qed.

Lemma lookup_new {A : Type} (h : list A) (b : A) :
  (h ++ [b]) !! List.length h = Some b.
Proof. apply list_lookup_middle. reflexivity. Qed.

Lemma insert_new {A : Type} (h : list A) (b x : A) :
  <[List.length h := x]> (h ++ [b]) = h ++ [x].
Proof.
  replace (List.length h) with (List.length h + 0) at 1 by lia.
  now rewrite insert_app_r.
Qed.

(** One call on an object whose flags say that [l] was appended. *)
Lemma method_of_flagged (l : list Category) (text : string) (c : Category)
    (v : string) (this : ref) (h : Heap) :
  h !! this = Some (flagged l text) ->
  method_of c this v h =
    if Watermark.legal (tracked l) c
    then (Normal this,
          <[this := flagged (l ++ [c]) (text +:+ render (c, v))]> h)
    else (Throw (if Watermark.at_most_one c && appended c l
                 then DuplicateError else OrderError), h).
Proof.
  intros H. rewrite (method_of_spec _ _ _ _ _ H), (refusal_legal l text).
  rewrite <- extended_flagged, refusal_flagged.
  destruct (Watermark.at_most_one c && appended c l); [reflexivity|].
  now destruct (Watermark.some_later c l).
Qed.

(** One call on an object that a chain built. *)
Lemma method_of_built (pre : list call) (c : Category) (v : string)
    (this : ref) (h : Heap) :
  h !! this = Some (built pre) ->
  method_of c this v h =
    if Watermark.legal (tracked (categories pre)) c
    then (Normal this, <[this := built (pre ++ [(c, v)])]> h)
    else (Throw (if Watermark.at_most_one c && appended c (categories pre)
                 then DuplicateError else OrderError), h).
Proof.
  intros H. rewrite built_snoc. now apply method_of_flagged.
Qed.

(** The calls [rest] on an object that the calls [pre] built: the chain goes
    through iff the machine accepts [rest] from where [pre] left it. *)
Lemma appends_accepts (rest pre : list call) (this : ref) (h : Heap) :
  h !! this = Some (built pre) ->
  is_normal (fst (appends this rest h))
  = Watermark.accepts (tracked (categories pre)) (categories rest).
Proof.
  revert pre h. induction rest as [|[c v] rest IH]; intros pre h H.
  - reflexivity.
  - cbn [appends categories map fst Watermark.accepts]. unfold bind.
    rewrite (method_of_built _ _ _ _ _ H).
    destruct (Watermark.legal (tracked (categories pre)) c); [|reflexivity].
    rewrite (IH (pre ++ [(c, v)])) by (eapply lookup_store, H).
    now rewrite categories_snoc, tracked_snoc.
Qed.

Lemma appends_built (rest pre : list call) (this : ref) (h : Heap) :
  h !! this = Some (built pre) ->
  Watermark.accepts (tracked (categories pre)) (categories rest) = true ->
  appends this rest h = (Normal this, <[this := built (pre ++ rest)]> h).
Proof.
  revert pre h. induction rest as [|[c v] rest IH]; intros pre h H A.
  - cbn. now rewrite app_nil_r, list_insert_id.
  - cbn [appends categories map fst Watermark.accepts] in *. unfold bind.
    rewrite (method_of_built _ _ _ _ _ H).
    apply andb_true_iff in A as [L A]. rewrite L.
    rewrite (IH (pre ++ [(c, v)])).
    + now rewrite list_insert_insert_eq, <- app_assoc.
    + eapply lookup_store, H.
    + now rewrite categories_snoc, tracked_snoc.
Qed.

(** The first call, through the facade, always returns. *)
Lemma facade_of_spec (c : Category) (v : string) (h : Heap) :
  facade_of c v h = (Normal (List.length h), h ++ [built [(c, v)]]).
Proof.
  rewrite facade_of_new. unfold bind. rewrite new_spec.
  rewrite (method_of_built [] c v _ _ (lookup_new h _)).
  replace (Watermark.legal (tracked (categories [])) c) with true
    by (now destruct c).
  now rewrite insert_new.
Qed.

(** A chain from the facade is the calls on a new object. *)
Lemma chain_appends (first : call) (rest : list call) (h : Heap) :
  chain first rest h
  = appends (List.length h) (first :: rest) (h ++ [built []]).
Proof.
  destruct first as [c v]. unfold chain. cbn [fst snd appends].
  rewrite facade_of_new. reflexivity.
Qed.

Lemma chain_accepts (first : call) (rest : list call) (h : Heap) :
  is_normal (fst (chain first rest h))
  = Watermark.accepts Watermark.initial (categories (first :: rest)).
Proof.
  rewrite chain_appends.
  now rewrite (appends_accepts _ [] _ _ (lookup_new h _)).
Qed.

Lemma chain_built (first : call) (rest : list call) (h : Heap) :
  Watermark.accepts Watermark.initial (categories (first :: rest)) = true ->
  chain first rest h = (Normal (List.length h), h ++ [built (first :: rest)]).
Proof.
  intros A. rewrite chain_appends.
  rewrite (appends_built _ [] _ _ (lookup_new h _) A).
  now rewrite insert_new.
Qed.

(** A chain that returns has built its object at the end of the old heap. *)
Lemma chain_Normal (first : call) (rest : list call) (h h' : Heap) (r : ref) :
  chain first rest h = (Normal r, h') ->
  Watermark.accepts Watermark.initial (categories (first :: rest)) = true
  /\ r = List.length h /\ h' = h ++ [built (first :: rest)].
Proof.
  intros E. pose proof (chain_accepts first rest h) as A.
  rewrite E in A. cbn in A. symmetry in A.
  rewrite (chain_built _ _ _ A) in E. now inversion E.
Qed.

(** ** Sequences that respect the order *)

Lemma respects_order_cons (c : Category) (l : list Category) :
  Watermark.respects_order (c :: l)
  = forallb (Watermark.may_follow c) l && Watermark.respects_order l.
Proof. reflexivity. Qed.

Lemma respects_order_app (l1 l2 : list Category) :
  Watermark.respects_order l1 = true -> Watermark.respects_order l2 = true ->
  (forall c d, In c l1 -> In d l2 -> Watermark.may_follow c d = true) ->
  Watermark.respects_order (l1 ++ l2) = true.
Proof.
  intros H1 H2 F. induction l1 as [|c l1 IH]; [assumption|].
  cbn [app]. rewrite respects_order_cons in *.
  apply andb_true_iff in H1 as [A B]. apply andb_true_iff. split.
  - rewrite forallb_app, A. apply forallb_forall.
    intros d Hd. apply F; [now left|assumption].
  - apply IH; [assumption|].
    intros c' d Hc Hd. apply F; [now right|assumption].
Qed.

Lemma respects_order_repeat (c : Category) (n : nat) :
  Watermark.at_most_one c = false ->
  Watermark.respects_order (repeat c n) = true.
Proof.
  intros Hc. induction n as [|n IH]; [reflexivity|].
  cbn [repeat]. rewrite respects_order_cons, IH, andb_true_r.
  apply forallb_forall. intros d Hd%repeat_spec. subst d.
  unfold Watermark.may_follow. rewrite Hc. apply Nat.leb_refl.
Qed.

(** Which category a member of a piece of the grammar is. *)
Ltac members :=
  repeat match goal with
  | H : In _ (_ ++ _) |- _ => apply in_app_or in H as [H|H]
  | H : In _ (repeat _ _) |- _ => apply repeat_spec in H; subst
  | H : In _ (Watermark.optional ?b _) |- _ =>
      destruct b; cbn in H; [destruct H as [H|[]]; subst | destruct H]
  end.

Lemma grammar_respects_order (e i : bool) (nc na np : nat) (pe : bool) :
  Watermark.respects_order (Watermark.in_grammar_order e i nc na np pe) = true.
Proof.
  unfold Watermark.in_grammar_order.
  repeat (apply respects_order_app;
          [first [ now apply respects_order_repeat
                 | match goal with
                   | |- context [Watermark.optional ?b _] => now destruct b
                   end ]
          | .. ]);
    try (intros c d Hc Hd; members; reflexivity).
  now destruct pe.
Qed.

Lemma respects_order_grammar (l : list Category) :
  Watermark.respects_order l = true ->
  exists e i nc na np pe, l = Watermark.in_grammar_order e i nc na np pe.
Proof.
  induction l as [|c l IH].
  - intros _. now exists false, false, 0, 0, 0, false.
  - rewrite respects_order_cons. intros [F R]%andb_true_iff.
    destruct (IH R) as (e & i & nc & na & np & pe & ->). clear IH R.
    unfold Watermark.in_grammar_order in *.
    destruct c.
    + destruct e; [discriminate F|].
      now exists true, i, nc, na, np, pe.
    + destruct e; [discriminate F|]. destruct i; [discriminate F|].
      now exists false, true, nc, na, np, pe.
    + destruct e; [discriminate F|]. destruct i; [discriminate F|].
      now exists false, false, (S nc), na, np, pe.
    + destruct e; [discriminate F|]. destruct i; [discriminate F|].
      destruct nc; [|discriminate F].
      now exists false, false, 0, (S na), np, pe.
    + destruct e; [discriminate F|]. destruct i; [discriminate F|].
      destruct nc; [|discriminate F]. destruct na; [|discriminate F].
      now exists false, false, 0, 0, (S np), pe.
    + destruct e; [discriminate F|]. destruct i; [discriminate F|].
      destruct nc; [|discriminate F]. destruct na; [|discriminate F].
      destruct np; [|discriminate F]. destruct pe; [discriminate F|].
      now exists false, false, 0, 0, 0, true.
Qed.

(** The sequences that respect the order are those of the grammar. *)
Lemma respects_order_iff_grammar (l : list Category) :
  Watermark.respects_order l = true
  <-> exists e i nc na np pe, l = Watermark.in_grammar_order e i nc na np pe.
Proof.
  split; [apply respects_order_grammar|].
  intros (e & i & nc & na & np & pe & ->). apply grammar_respects_order.
Qed.

(** What one more appended category forbids. *)
Lemma legal_after (pre : list Category) (c d : Category) :
  Watermark.legal (tracked (pre ++ [c])) d
  = Watermark.legal (tracked pre) d && Watermark.may_follow c d.
Proof.
  rewrite !legal_tracked. unfold Watermark.none_later.
  rewrite forallb_app, appended_snoc. cbn [forallb]. rewrite andb_true_r.
  destruct (forallb _ pre), (appended d pre), c, d; reflexivity.
Qed.

Lemma accepts_respects_order (l pre : list Category) :
  Watermark.accepts (tracked pre) l
  = forallb (Watermark.legal (tracked pre)) l && Watermark.respects_order l.
Proof.
  revert pre. induction l as [|c l IH]; intros pre; [reflexivity|].
  cbn [Watermark.accepts forallb Watermark.respects_order].
  rewrite <- tracked_snoc, IH.
  assert (E : forallb (Watermark.legal (tracked (pre ++ [c]))) l
    = forallb (Watermark.legal (tracked pre)) l
      && forallb (Watermark.may_follow c) l).
  { clear IH. induction l as [|d l IH]; [reflexivity|].
    cbn [forallb]. rewrite IH, legal_after.
    repeat match goal with
    | |- context [forallb ?f l] => destruct (forallb f l)
    end; rewrite ?andb_true_r, ?andb_false_r; reflexivity. }
  rewrite E.
  destruct (Watermark.legal (tracked pre) c),
    (forallb (Watermark.legal (tracked pre)) l); reflexivity.
Qed.

(** Respecting the order is what the machine accepts from the start. *)
Lemma respects_order_accepts (l : list Category) :
  Watermark.respects_order l = Watermark.accepts Watermark.initial l.
Proof.
  change Watermark.initial with (tracked []).
  rewrite accepts_respects_order.
  assert (E : forallb (Watermark.legal (tracked [])) l = true).
  { apply forallb_forall. intros c _. now destruct c. }
  now rewrite E.
Qed.

(** ** stringify and combine *)

Lemma stringify_spec (this : ref) (h : Heap) (b : Builder) :
  h !! this = Some b ->
  Builder.stringify this h
  = (Normal (selectorString b), <[this := set_selectorString "" b]> h).
Proof.
  intros H. unfold Builder.stringify, bind.
  now rewrite (load_Some _ _ _ H), (store_Some _ _ _ _ H).
Qed.

(** The method, on any receiver: [this] may be one of the arguments. *)
Lemma Builder_combine_spec (this selector1 selector2 : ref)
    (combinator : string) (h : Heap) (b s1 s2 : Builder) :
  h !! this = Some b -> h !! selector1 = Some s1 -> h !! selector2 = Some s2 ->
  Builder.combine this selector1 combinator selector2 h
  = (Normal this,
     <[this := set_selectorString
                 (selectorString b +:+
                    (selectorString s1 +:+ " " +:+ combinator +:+ " " +:+
                       selectorString s2)) b]> h).
Proof.
  intros H H1 H2. unfold Builder.combine, bind.
  now rewrite (load_Some _ _ _ H), (load_Some _ _ _ H1), (load_Some _ _ _ H2),
    (store_Some _ _ _ _ H).
Qed.

(** The method writes to its receiver only. *)
Lemma Builder_combine_frame (this selector1 selector2 : ref)
    (combinator : string) (h : Heap) (b s1 s2 : Builder) (o : ref) :
  h !! this = Some b -> h !! selector1 = Some s1 -> h !! selector2 = Some s2 ->
  o <> this ->
  snd (Builder.combine this selector1 combinator selector2 h) !! o = h !! o.
Proof.
  intros H H1 H2 Ho.
  rewrite (Builder_combine_spec _ _ _ _ _ _ _ _ H H1 H2). cbn [snd].
  apply list_lookup_insert_ne. congruence.
Qed.

(** When the receiver is also an argument, its old text is read twice. *)
Example Builder_combine_alias :
  Builder.combine 0 0 "+" 1 [built [(catElement, "a")]; built [(catElement, "b")]]
  = (Normal 0,
     [set_selectorString "aa + b" (built [(catElement, "a")]);
      built [(catElement, "b")]]).
Proof. reflexivity. Qed.

(** The facade: the receiver is a new object, at the end of the heap. *)
Lemma combine_spec (selector1 selector2 : ref) (combinator : string)
    (h : Heap) (s1 s2 : Builder) :
  h !! selector1 = Some s1 -> h !! selector2 = Some s2 ->
  cssSelectorBuilder.combine selector1 combinator selector2 h
  = (Normal (List.length h),
     h ++ [set_selectorString
             (selectorString s1 +:+ " " +:+ combinator +:+ " " +:+
                selectorString s2) Builder.constructor]).
Proof.
  intros H1 H2. unfold cssSelectorBuilder.combine, bind. rewrite new_spec.
  rewrite (Builder_combine_spec _ _ _ _ _ Builder.constructor s1 s2
             (lookup_new h _)) by (now apply lookup_app_l_Some).
  now rewrite insert_new.
Qed.

(** A method called through a reference to no object throws at the first
    property read. *)
Lemma method_of_None (c : Category) (this : ref) (v : string) (h : Heap) :
  h !! this = None -> method_of c this v h = (Throw TypeError, h).
Proof.
  intros H.
  destruct c; cbn;
    unfold Builder.element, Builder.id, Builder.class, Builder.attr,
      Builder.pseudoClass, Builder.pseudoElement, bind, load;
    now rewrite H.
Qed.

(** ** Sessions *)

Lemma flagged_text (l : list Category) (text text' : string) :
  set_selectorString text' (flagged l text) = flagged l text'.
Proof. reflexivity. Qed.

Lemma agrees_log (h : Heap) (g : Log) (r : ref) (l : list Category) :
  agrees h g -> g !! r = Some l ->
  exists text, h !! r = Some (flagged l text).
Proof.
  intros A G. destruct (Forall2_lookup_r _ _ _ _ _ A G) as (b & Hb & text & ->).
  now exists text.
Qed.

Lemma agrees_heap (h : Heap) (g : Log) (r : ref) (b : Builder) :
  agrees h g -> h !! r = Some b ->
  exists l text, g !! r = Some l /\ b = flagged l text.
Proof.
  intros A Hb. destruct (Forall2_lookup_l _ _ _ _ _ A Hb) as (l & G & text & ->).
  now exists l, text.
Qed.

Lemma agrees_new (h : Heap) (g : Log) (l : list Category) (text : string) :
  agrees h g -> agrees (h ++ [flagged l text]) (g ++ [l]).
Proof.
  intros A. apply Forall2_app; [assumption|].
  constructor; [now exists text|constructor].
Qed.

(** A write to the text of an object changes no flag. *)
Lemma agrees_text (h : Heap) (g : Log) (this : ref) (b : Builder)
    (text : string) :
  agrees h g -> h !! this = Some b ->
  agrees (<[this := set_selectorString text b]> h) g.
Proof.
  intros A Hb. destruct (agrees_heap _ _ _ _ A Hb) as (l & t & G & ->).
  rewrite <- (list_insert_id g this l G).
  apply Forall2_insert; [assumption|]. now exists text.
Qed.

(** The heap after the method [combine]: unchanged when it throws. *)
Lemma Builder_combine_heap (this s1 s2 : ref) (k : string) (h : Heap)
    (b : Builder) :
  h !! this = Some b ->
  snd (Builder.combine this s1 k s2 h) = h
  \/ exists text,
       snd (Builder.combine this s1 k s2 h)
       = <[this := set_selectorString text b]> h.
Proof.
  intros H. unfold Builder.combine, bind. rewrite (load_Some _ _ _ H).
  unfold load. destruct (h !! s1) as [b1|]; [|now left].
  destruct (h !! s2) as [b2|]; [|now left].
  rewrite (store_Some _ _ _ _ H). right. now eexists.
Qed.

Lemma perform_agrees (op : operation) (h : Heap) (g : Log) :
  agrees h g ->
  agrees (snd (perform op h)) (logged op (fst (perform op h)) g).
Proof.
  intros A. destruct op as [c v|this c v|s1 k s2|this s1 k s2|this];
    cbn [perform logged].
  - rewrite facade_of_spec. cbn. now apply (agrees_new h g [c]).
  - destruct (h !! this) as [b|] eqn:Hb.
    + destruct (agrees_heap _ _ _ _ A Hb) as (l & text & G & ->).
      rewrite (method_of_flagged _ _ c v _ _ Hb), G.
      destruct (Watermark.legal (tracked l) c); cbn; [|assumption].
      apply Forall2_insert; [assumption|]. now eexists.
    + rewrite (method_of_None _ _ _ _ Hb). cbn.
      now destruct (g !! this).
  - unfold cssSelectorBuilder.combine, bind. rewrite new_spec.
    destruct (Builder_combine_heap (List.length h) s1 s2 k
                (h ++ [built []]) _ (lookup_new h _)) as [E|[text E]];
      destruct (Builder.combine _ s1 k s2 _) as [[r|e] h']; cbn in *; subst h'.
    + now apply (agrees_new h g [] "").
    + now apply (agrees_new h g [] "").
    + rewrite insert_new. now apply (agrees_new h g [] text).
    + rewrite insert_new. now apply (agrees_new h g [] text).
  - destruct (h !! this) as [b|] eqn:Hb.
    + destruct (Builder_combine_heap this s1 s2 k h b Hb) as [E|[text E]];
        destruct (Builder.combine this s1 k s2 h) as [r h']; cbn in *; subst h'.
      * assumption.
      * now apply agrees_text.
    + unfold Builder.combine, bind, load. now rewrite Hb.
  - destruct (h !! this) as [b|] eqn:Hb.
    + rewrite (stringify_spec _ _ _ Hb). cbn. now apply agrees_text.
    + unfold Builder.stringify, bind, load. now rewrite Hb.
Qed.

Lemma session_agrees (ops : list operation) (h : Heap) (g : Log) :
  agrees h g ->
  agrees (fst (session ops h g)) (snd (session ops h g)).
Proof.
  revert h g. induction ops as [|op ops IH]; intros h g A; [assumption|].
  cbn [session]. pose proof (perform_agrees op h g A) as A'.
  destruct (perform op h) as [returned h']. now apply IH.
Qed.

(** In a session from the empty heap, an append call is decided by the log
    of its object. *)
Lemma session_method_of (ops : list operation) (h : Heap) (g : Log) (r : ref)
    (l : list Category) (c : Category) (v : string) :
  session ops [] [] = (h, g) -> g !! r = Some l ->
  exists text,
    h !! r = Some (flagged l text)
    /\ method_of c r v h =
         if Watermark.legal (tracked l) c
         then (Normal r,
               <[r := flagged (l ++ [c]) (text +:+ render (c, v))]> h)
         else (Throw (if Watermark.at_most_one c && appended c l
                      then DuplicateError else OrderError), h).
Proof.
  intros E G. assert (A : agrees [] []) by constructor.
  apply (session_agrees ops) in A. rewrite E in A. cbn in A.
  destruct (agrees_log _ _ _ _ A G) as [text Hr].
  exists text. split; [assumption|]. now apply method_of_flagged.
Qed.

(** The log of the object a chain builds is the categories of its calls. *)
Lemma session_appends (rest pre : list call) (h : Heap) (g : Log) :
  List.length h = List.length g ->
  Watermark.accepts (tracked (categories pre)) (categories rest) = true ->
  session (map (fun cl : call => Append (List.length h) (fst cl) (snd cl)) rest)
    (h ++ [built pre]) (g ++ [categories pre])
  = (h ++ [built (pre ++ rest)], g ++ [categories (pre ++ rest)]).
Proof.
  intros L. revert pre. induction rest as [|[c v] rest IH]; intros pre A.
  - now rewrite app_nil_r.
  - cbn [map session perform fst snd categories Watermark.accepts] in *.
    apply andb_true_iff in A as [Hc A].
    rewrite (method_of_built pre c v _ _ (lookup_new h _)), Hc. cbn [is_normal].
    cbn [logged]. rewrite insert_new.
    replace ((g ++ [categories pre]) !! List.length h)
      with (Some (categories pre)) by (now rewrite L, lookup_new).
    replace (<[List.length h := categories pre ++ [c]]> (g ++ [categories pre]))
      with (g ++ [categories pre ++ [c]]) by (now rewrite L, insert_new).
    rewrite <- (categories_snoc pre c v).
    rewrite (IH (pre ++ [(c, v)])).
    + now rewrite <- app_assoc.
    + now rewrite categories_snoc, tracked_snoc.
Qed.

Lemma session_chain (first : call) (rest : list call) (h : Heap) (g : Log) :
  List.length h = List.length g ->
  Watermark.accepts Watermark.initial (categories (first :: rest)) = true ->
  session (as_session (List.length h) first rest) h g
  = (h ++ [built (first :: rest)], g ++ [categories (first :: rest)]).
Proof.
  intros L A. destruct first as [c v]. unfold as_session.
  cbn [session perform fst snd]. rewrite facade_of_spec. cbn [is_normal logged].
  cbn [categories map fst Watermark.accepts] in A.
  apply andb_true_iff in A as [_ A].
  exact (session_appends rest [(c, v)] h g L A).
Qed.

(** ** The examples of the documentation of the module *)

Example documented_chain :
  fst (chain_stringify (catId, "main")
         [(catClass, "container"); (catClass, "editable")] [])
  = Normal "#main.container.editable".
Proof. reflexivity. Qed.

Example documented_combination_renders :
  fst (documented_combination [])
  = Normal
      "div#main.container.draggable + table#data ~ tr:nth-of-type(even)   td:nth-of-type(even)".
Proof. reflexivity. Qed.

(** * The claims about the selector builder *)

(** C1: the flags of [Builder] accept exactly the chains of append calls that
    the watermark machine of the specification accepts.  In any session, an
    append of category [c] on an object returns iff no category strictly
    later than [c] was appended to it and, when [c] is element, id or
    pseudoElement, [c] itself was not; a repeatable category (class,
    attribute, pseudoClass) can be appended any number of times in a row. *)
Theorem flags_refine_watermark :
  (forall (h : Heap) (first : call) (rest : list call),
      is_normal (fst (chain first rest h))
      = Watermark.accepts Watermark.initial (categories (first :: rest)))
  /\ (forall (ops : list operation) (h : Heap) (g : Log) (r : ref)
             (l : list Category) (c : Category) (v : string),
        session ops [] [] = (h, g) -> g !! r = Some l ->
        is_normal (fst (method_of c r v h))
        = Watermark.legal (tracked l) c
        /\ Watermark.legal (tracked l) c
           = Watermark.none_later c l
             && negb (Watermark.at_most_one c && appended c l))
  /\ (forall (h : Heap) (c : Category) (v : string) (vs : list string),
        Watermark.at_most_one c = false ->
        is_normal (fst (chain (c, v) (map (pair c) vs) h)) = true).
Proof.
  split; [exact (fun h first rest => chain_accepts first rest h)|]. split.
  - intros ops h g r l c v E G.
    destruct (session_method_of ops h g r l c v E G) as (text & _ & ->).
    split; [|apply legal_tracked].
    now destruct (Watermark.legal (tracked l) c).
  - intros h c v vs Hc. rewrite chain_accepts, <- respects_order_accepts.
    change (categories ((c, v) :: map (pair c) vs))
      with (c :: categories (map (pair c) vs)).
    assert (E : categories (map (pair c) vs) = repeat c (List.length vs)).
    { unfold categories. rewrite map_map. cbn [fst].
      clear. induction vs as [|x vs IH]; [reflexivity|]. cbn. now rewrite IH. }
    rewrite E.
    exact (respects_order_repeat c (S (List.length vs)) Hc).
Qed.

(** After [id('main').class('container')], [stringify()] and another chain,
    a further class can be appended to the first object; and
    [class('c1').class('c2')] returns. *)
Lemma flags_refine_watermark_witness :
  is_normal
    (fst (method_of catClass 0 "editable"
            (fst (session [Start catId "main"; Append 0 catClass "container";
                           Stringify 0; Start catElement "a"] [] []))))
  = true
  /\ is_normal (fst (chain (catClass, "c1") (map (pair catClass) ["c2"]) []))
     = true.
Proof.
  split.
  - exact (proj1 (proj1 (proj2 flags_refine_watermark)
                    [Start catId "main"; Append 0 catClass "container";
                     Stringify 0; Start catElement "a"]
                    _ _ 0 _ catClass "editable" eq_refl eq_refl)).
  - exact (proj2 (proj2 flags_refine_watermark) [] catClass "c1" ["c2"] eq_refl).
Defined.

(** C2: for a chain of appends that respects the category order,
    [stringify()] returns the renderings of the fragments (v, #v, .v, [v],
    :v, ::v) concatenated in the order of the calls, with nothing between
    them. *)
Theorem stringify_concatenates (h : Heap) (first : call) (rest : list call) :
  Watermark.respects_order (categories (first :: rest)) = true ->
  fst (chain_stringify first rest h) = Normal (rendering (first :: rest)).
Proof.
  intros R. rewrite respects_order_accepts in R.
  unfold chain_stringify, bind. rewrite (chain_built _ _ h R).
  now rewrite (stringify_spec _ _ _ (lookup_new h _)).
Qed.

Lemma stringify_concatenates_witness :
  fst (chain_stringify (catClass, "c1") [(catClass, "c2")] []) = Normal ".c1.c2".
Proof.
  exact (stringify_concatenates [] (catClass, "c1") [(catClass, "c2")] eq_refl).
Defined.

(** C3, as stated, fails: after [element('a').id('x')] the category element
    is strictly earlier than the appended id, yet a second [element('b')]
    raises the error for a repeated category, not the one for the order. *)
Lemma element_id_element_not_OrderError :
  exists (r : ref) (h' : Heap),
    chain (catElement, "a") [(catId, "x")] [] = (Normal r, h')
    /\ Watermark.some_later catElement
         (categories [(catElement, "a"); (catId, "x")]) = true
    /\ fst (Builder.element r "b" h') = Throw DuplicateError
    /\ fst (Builder.element r "b" h') <> Throw OrderError.
Proof.
  exists 0, [built [(catElement, "a"); (catId, "x")]].
  repeat split; try reflexivity. cbv. discriminate.
Qed.

(** C3, amended: in any session, appending to an object a category that is
    strictly earlier than one already appended to it throws and leaves the
    heap as it was; the error is OrderError, except for an element or id
    that was itself already appended, where it is DuplicateError.  For all
    values x and a, [id(x).element(a)] raises OrderError at the [element]
    call. *)
Theorem earlier_category_refused :
  (forall (ops : list operation) (h : Heap) (g : Log) (r : ref)
          (l : list Category) (c : Category) (v : string),
      session ops [] [] = (h, g) -> g !! r = Some l ->
      Watermark.some_later c l = true ->
      method_of c r v h
      = (Throw (if Watermark.at_most_one c && appended c l
                then DuplicateError else OrderError), h))
  /\ (forall (h : Heap) (x a : string),
        exists (r : ref) (h' : Heap),
          cssSelectorBuilder.id x h = (Normal r, h')
          /\ Builder.element r a h' = (Throw OrderError, h')).
Proof.
  split.
  - intros ops h g r l c v E G L.
    destruct (session_method_of ops h g r l c v E G) as (text & _ & ->).
    now rewrite legal_tracked, none_later_some_later, L.
  - intros h x a.
    exists (List.length h), (h ++ [built [(catId, x)]]). split.
    + exact (facade_of_spec catId x h).
    + exact (method_of_built [(catId, x)] catElement a _ _ (lookup_new h _)).
Qed.

(** [class('c').attr('href')], then [class('late')] on the same object. *)
Lemma earlier_category_refused_witness :
  method_of catClass 0 "late"
    [built [(catClass, "c"); (catAttribute, "href")]]
  = (Throw OrderError, [built [(catClass, "c"); (catAttribute, "href")]]).
Proof.
  exact (proj1 earlier_category_refused
           [Start catClass "c"; Append 0 catAttribute "href"]
           _ _ 0 _ catClass "late" eq_refl eq_refl eq_refl).
Defined.

(** C4: in any session, appending element, id or pseudoElement to an object
    to which that category was already appended raises DuplicateError,
    whatever else was appended; so [element(a).id(x).element(b)] raises
    DuplicateError, which is not OrderError. *)
Theorem duplicate_refused :
  (forall (ops : list operation) (h : Heap) (g : Log) (r : ref)
          (l : list Category) (c : Category) (v : string),
      session ops [] [] = (h, g) -> g !! r = Some l ->
      Watermark.at_most_one c = true -> appended c l = true ->
      method_of c r v h = (Throw DuplicateError, h))
  /\ (forall (h : Heap) (a x b : string),
        exists (r : ref) (h' : Heap),
          chain (catElement, a) [(catId, x)] h = (Normal r, h')
          /\ Builder.element r b h' = (Throw DuplicateError, h'))
  /\ DuplicateError <> OrderError.
Proof.
  split; [|split].
  - intros ops h g r l c v E G Hc Ha.
    destruct (session_method_of ops h g r l c v E G) as (text & _ & ->).
    now rewrite legal_tracked, Hc, Ha, andb_false_r.
  - intros h a x b.
    exists (List.length h), (h ++ [built [(catElement, a); (catId, x)]]).
    split.
    + exact (chain_built (catElement, a) [(catId, x)] h eq_refl).
    + exact (method_of_built [(catElement, a); (catId, x)] catElement b _ _
               (lookup_new h _)).
  - cbv. discriminate.
Qed.

(** [id('x').pseudoElement('before')], then [stringify()] and a failed
    [class('c')], then [pseudoElement('after')] on the same object. *)
Lemma duplicate_refused_witness :
  method_of catPseudoElement 0 "after"
    (fst (session [Start catId "x"; Append 0 catPseudoElement "before";
                   Stringify 0; Append 0 catClass "c"] [] []))
  = (Throw DuplicateError,
     fst (session [Start catId "x"; Append 0 catPseudoElement "before";
                   Stringify 0; Append 0 catClass "c"] [] [])).
Proof.
  exact (proj1 duplicate_refused
           [Start catId "x"; Append 0 catPseudoElement "before";
            Stringify 0; Append 0 catClass "c"]
           _ _ 0 _ catPseudoElement "after" eq_refl eq_refl eq_refl eq_refl).
Defined.

(** C5: an append call that throws has written nothing: the heap after the
    call, with the text and the flags of the object, is the heap before it,
    and the error is the outcome of that very call. *)
Theorem failed_append_changes_nothing (c : Category) (this : ref) (v : string)
    (h h' : Heap) (e : exn) :
  method_of c this v h = (Throw e, h') -> h' = h.
Proof.
  destruct (h !! this) as [b|] eqn:H.
  - rewrite (method_of_spec _ _ _ _ _ H).
    destruct (refusal c b); intros E; now inversion E.
  - rewrite (method_of_None _ _ _ _ H). intros E. now inversion E.
Qed.

Lemma failed_append_changes_nothing_witness :
  method_of catElement 0 "b" [built [(catElement, "a"); (catId, "x")]]
  = (Throw DuplicateError,
     snd (method_of catElement 0 "b"
            [built [(catElement, "a"); (catId, "x")]]))
  /\ snd (method_of catElement 0 "b"
            [built [(catElement, "a"); (catId, "x")]])
     = [built [(catElement, "a"); (catId, "x")]].
Proof.
  split; [reflexivity|].
  exact (failed_append_changes_nothing catElement 0 "b"
           [built [(catElement, "a"); (catId, "x")]] _ DuplicateError
           eq_refl).
Defined.

(** C6: for selectors [a] and [b] in any state and any combinator [c],
    [combine(a, c, b)] returns, and [stringify()] on the result returns the
    text of [a], a space, [c], a space and the text of [b]: for two chains
    that respect the order, their renderings around the combinator; the
    example of the specification renders as [div#main + span]. *)
Theorem combine_renders :
  (forall (h : Heap) (a b : ref) (c : string) (sa sb : Builder),
      h !! a = Some sa -> h !! b = Some sb ->
      exists (r : ref) (h1 : Heap),
        cssSelectorBuilder.combine a c b h = (Normal r, h1)
        /\ fst (Builder.stringify r h1)
           = Normal (selectorString sa +:+ " " +:+ c +:+ " " +:+
                       selectorString sb))
  /\ (forall (h : Heap) (left right : call * list call) (c : string),
        Watermark.respects_order (categories (fst left :: snd left)) = true ->
        Watermark.respects_order (categories (fst right :: snd right)) = true ->
        fst (combine_chains left c right h)
        = Normal (rendering (fst left :: snd left) +:+ " " +:+ c +:+ " " +:+
                    rendering (fst right :: snd right)))
  /\ (forall h : Heap, fst (combine_example h) = Normal "div#main + span").
Proof.
  assert (G : forall (h : Heap) (a b : ref) (c : string) (sa sb : Builder),
      h !! a = Some sa -> h !! b = Some sb ->
      exists (r : ref) (h1 : Heap),
        cssSelectorBuilder.combine a c b h = (Normal r, h1)
        /\ fst (Builder.stringify r h1)
           = Normal (selectorString sa +:+ " " +:+ c +:+ " " +:+
                       selectorString sb)).
  { intros h a b c sa sb Ha Hb. eexists _, _. split.
    - exact (combine_spec a b c h sa sb Ha Hb).
    - now rewrite (stringify_spec _ _ _ (lookup_new h _)). }
  assert (C : forall (h : Heap) (left right : call * list call) (c : string),
        Watermark.respects_order (categories (fst left :: snd left)) = true ->
        Watermark.respects_order (categories (fst right :: snd right)) = true ->
        fst (combine_chains left c right h)
        = Normal (rendering (fst left :: snd left) +:+ " " +:+ c +:+ " " +:+
                    rendering (fst right :: snd right))).
  { intros h [fa ra] [fb rb] c Ra Rb. cbn [fst snd] in *.
    rewrite respects_order_accepts in Ra, Rb.
    unfold combine_chains. cbn [fst snd].
    unfold bind at 1. rewrite (chain_built fa ra h Ra).
    unfold bind at 1. rewrite (chain_built fb rb _ Rb).
    destruct (G ((h ++ [built (fa :: ra)]) ++ [built (fb :: rb)])
                (List.length h) (List.length (h ++ [built (fa :: ra)])) c
                (built (fa :: ra)) (built (fb :: rb)))
      as (r & h1 & E & S).
    - apply lookup_app_l_Some, lookup_new.
    - apply lookup_new.
    - unfold bind. now rewrite E. }
  split; [exact G|]. split; [exact C|].
  intros h.
  exact (C h ((catElement, "div"), [(catId, "main")])
           ((catElement, "span"), []) "+" eq_refl eq_refl).
Qed.

(** On one object that is both arguments. *)
Lemma combine_renders_witness :
  exists (r : ref) (h1 : Heap),
    cssSelectorBuilder.combine 0 ">" 0 [built [(catElement, "li")]]
    = (Normal r, h1)
    /\ fst (Builder.stringify r h1) = Normal "li > li".
Proof.
  exact (proj1 combine_renders [built [(catElement, "li")]] 0 0 ">"
           _ _ eq_refl eq_refl).
Defined.

(** C7: [stringify()] returns the accumulated text and empties the buffer:
    a second [stringify()] right after the first returns the empty string. *)
Theorem stringify_twice (h : Heap) (this : ref) (b : Builder) :
  h !! this = Some b ->
  exists h1 h2 : Heap,
    Builder.stringify this h = (Normal (selectorString b), h1)
    /\ selectorString <$> h1 !! this = Some ""
    /\ Builder.stringify this h1 = (Normal "", h2).
Proof.
  intros H. pose proof (lookup_store this (set_selectorString "" b) h b H) as H1.
  eexists _, _. split; [exact (stringify_spec _ _ _ H)|]. split.
  - now rewrite H1.
  - exact (stringify_spec _ _ _ H1).
Qed.

Lemma stringify_twice_witness :
  exists h1 h2 : Heap,
    Builder.stringify 0 [built [(catId, "main"); (catClass, "container")]]
    = (Normal "#main.container", h1)
    /\ selectorString <$> h1 !! 0 = Some ""
    /\ Builder.stringify 0 h1 = (Normal "", h2).
Proof.
  exact (stringify_twice [built [(catId, "main"); (catClass, "container")]]
           0 _ eq_refl).
Defined.

(** C10: [combine(a, c, b)] writes to neither argument.  Every object of the
    heap before the call is unchanged after it, the result is a new object,
    and [stringify()] on [a] or on [b] after the call still returns the whole
    text of that argument. *)
Theorem combine_preserves_arguments (h : Heap) (a b : ref) (c : string)
    (sa sb : Builder) :
  h !! a = Some sa -> h !! b = Some sb ->
  exists (r : ref) (h1 : Heap),
    cssSelectorBuilder.combine a c b h = (Normal r, h1)
    /\ r <> a /\ r <> b
    /\ (forall (o : ref) (so : Builder), h !! o = Some so -> h1 !! o = Some so)
    /\ fst (Builder.stringify a h1) = Normal (selectorString sa)
    /\ fst (Builder.stringify b h1) = Normal (selectorString sb).
Proof.
  intros Ha Hb. eexists _, _.
  split; [exact (combine_spec a b c h sa sb Ha Hb)|].
  pose proof (lookup_lt_Some _ _ _ Ha). pose proof (lookup_lt_Some _ _ _ Hb).
  split; [lia|]. split; [lia|]. split; [|split].
  - intros o so Ho. now apply lookup_app_l_Some.
  - now rewrite (stringify_spec a _ sa) by (now apply lookup_app_l_Some).
  - now rewrite (stringify_spec b _ sb) by (now apply lookup_app_l_Some).
Qed.

Lemma combine_preserves_arguments_witness :
  exists (r : ref) (h1 : Heap),
    cssSelectorBuilder.combine 0 "~" 1
      [built [(catElement, "table"); (catId, "data")];
       built [(catElement, "tr")]]
    = (Normal r, h1)
    /\ r <> 0 /\ r <> 1
    /\ (forall (o : ref) (so : Builder),
          [built [(catElement, "table"); (catId, "data")];
           built [(catElement, "tr")]] !! o = Some so ->
          h1 !! o = Some so)
    /\ fst (Builder.stringify 0 h1) = Normal "table#data"
    /\ fst (Builder.stringify 1 h1) = Normal "tr".
Proof.
  exact (combine_preserves_arguments
           [built [(catElement, "table"); (catId, "data")];
            built [(catElement, "tr")]] 0 1 "~" _ _ eq_refl eq_refl).
Defined.

(** * The host's JSON *)

Section JsonFacts.
Import JsonBridge Json.
Context {num : Type} `{Host num}.
Local Open Scope N_scope.

(** ** White space, digits and keywords *)

Lemma skip_ws_spec (s : jsstring) :
  exists w, s = w ++ skip_ws s /\ whitespace w.
Proof.
  induction s as [|c s (w & E & W)]; [now exists []|].
  cbn [skip_ws]. destruct (is_ws c) eqn:C.
  - exists (c :: w). split; [cbn; congruence|].
    unfold whitespace in *. cbn. now rewrite C.
  - now exists [].
Qed.

Lemma skip_ws_app (w s : jsstring) :
  whitespace w -> skip_ws (w ++ s) = skip_ws s.
Proof.
  unfold whitespace. induction w as [|c w IH]; [reflexivity|].
  cbn. intros [C W]%andb_true_iff. rewrite C. now apply IH.
Qed.

Lemma skip_ws_head (c : N) (s : jsstring) :
  is_ws c = false -> skip_ws (c :: s) = c :: s.
Proof. intros C. cbn. now rewrite C. Qed.

Lemma span_digits_spec (s d r : jsstring) :
  span_digits s = (d, r) -> s = d ++ r /\ forallb is_digit d = true.
Proof.
  revert d r. induction s as [|c s IH]; intros d r E; cbn in E.
  - injection E as <- <-. now split.
  - destruct (is_digit c) eqn:C.
    + destruct (span_digits s) as [d' r'] eqn:S.
      injection E as <- <-. destruct (IH _ _ eq_refl) as [-> D].
      split; [reflexivity|]. cbn. now rewrite C.
    + injection E as <- <-. now split.
Qed.

(** What may follow a run of digits for the run to end there. *)
Lemma span_digits_app (d r : jsstring) :
  forallb is_digit d = true -> no_digit_ahead r ->
  span_digits (d ++ r) = (d, r).
Proof.
  intros D R. induction d as [|c d IH]; cbn in *.
  - destruct r as [|c r]; [reflexivity|]. cbn. now rewrite R.
  - apply andb_true_iff in D as [C D]. now rewrite C, IH.
Qed.

Lemma after_prefix_spec (p s r : jsstring) :
  after_prefix p s = Some r -> s = p ++ r.
Proof.
  revert s. induction p as [|a p IH]; intros s E; cbn in E.
  - now injection E as ->.
  - destruct s as [|b s]; [discriminate|].
    destruct (N.eqb_spec a b) as [->|]; [|discriminate].
    cbn. f_equal. now apply IH.
Qed.

Lemma after_prefix_app (p r : jsstring) : after_prefix p (p ++ r) = Some r.
Proof.
  induction p as [|a p IH]; [reflexivity|]. cbn. now rewrite N.eqb_refl.
Qed.

(** ** Number literals *)

Lemma scan_number_sound (s lexeme r : jsstring) :
  scan_number s = Some (lexeme, r) ->
  s = lexeme ++ r /\ number_literal lexeme.
Proof.
  unfold scan_number.
  destruct (scan_sign s) as [sg s1] eqn:Sg.
  destruct (scan_int s1) as [[i s2]|] eqn:I; [|discriminate].
  destruct (scan_frac s2) as [f s3] eqn:F.
  destruct (scan_exp s3) as [e s4] eqn:E.
  intros X. injection X as <- <-.
  assert (Hsg : s = sg ++ s1 /\ sign_part sg).
  { unfold scan_sign in Sg. destruct s as [|c s].
    - injection Sg as <- <-. split; [reflexivity|now left].
    - destruct (N.eqb_spec c 45) as [->|].
      + injection Sg as <- <-. split; [reflexivity|now right].
      + injection Sg as <- <-. split; [reflexivity|now left]. }
  assert (Hi : s1 = i ++ s2 /\ int_part i).
  { unfold scan_int in I. destruct s1 as [|c t]; [discriminate|].
    destruct (N.eqb_spec c 48) as [->|].
    - injection I as <- <-. split; [reflexivity|now left].
    - destruct ((49 <=? c) && (c <=? 57)) eqn:C; [|discriminate].
      destruct (span_digits t) as [d r] eqn:S. injection I as <- <-.
      destruct (span_digits_spec _ _ _ S) as [-> D].
      split; [reflexivity|]. right. exists c, d.
      apply andb_true_iff in C as [C1 C2].
      apply N.leb_le in C1, C2. now repeat split. }
  assert (Hf : s2 = f ++ s3 /\ frac_part f).
  { unfold scan_frac in F. destruct s2 as [|c t].
    - injection F as <- <-. split; [reflexivity|now left].
    - destruct (N.eqb_spec c 46) as [->|].
      + destruct (span_digits t) as [d r] eqn:S.
        destruct (span_digits_spec _ _ _ S) as [-> D].
        destruct d as [|x d].
        * injection F as <- <-. split; [reflexivity|now left].
        * injection F as <- <-. split; [reflexivity|].
          right. exists (x :: d). now repeat split.
      + injection F as <- <-. split; [reflexivity|now left]. }
  assert (He : s3 = e ++ s4 /\ exp_part e).
  { unfold scan_exp in E. destruct s3 as [|c t].
    - injection E as <- <-. split; [reflexivity|now left].
    - destruct ((c =? 101) || (c =? 69)) eqn:C.
      + assert (Hc : c = 101 \/ c = 69).
        { apply orb_true_iff in C as [C|C]; apply N.eqb_eq in C; auto. }
        destruct (scan_exp_sign t) as [sg' t'] eqn:S.
        assert (Hs : t = sg' ++ t' /\ (sg' = [] \/ sg' = [43] \/ sg' = [45])).
        { unfold scan_exp_sign in S. destruct t as [|c0 t0].
          - injection S as <- <-. auto.
          - destruct (N.eqb_spec c0 43) as [->|]; [injection S as <- <-; auto|].
            destruct (N.eqb_spec c0 45) as [->|]; injection S as <- <-; auto. }
        destruct Hs as [-> Hs].
        destruct (span_digits t') as [d r] eqn:Sp.
        destruct (span_digits_spec _ _ _ Sp) as [-> D].
        destruct d as [|x d].
        * injection E as <- <-. split; [reflexivity|now left].
        * injection E as <- <-.
          split; [cbn; f_equal; now rewrite <- app_assoc|].
          right. exists c, sg', (x :: d). now repeat split.
      + injection E as <- <-. split; [reflexivity|now left]. }
  destruct Hsg as [-> Hsg], Hi as [-> Hi], Hf as [-> Hf], He as [-> He].
  split; [now rewrite <- !app_assoc|]. now constructor.
Qed.

(** What may follow a number literal for the literal to end there. *)
Lemma scan_number_complete (lexeme r : jsstring) :
  number_literal lexeme -> ends_number r ->
  scan_number (lexeme ++ r) = Some (lexeme, r).
Proof.
  intros [sg i f e Hsg Hi Hf He] R.
  assert (Di : exists c t, i = c :: t /\ is_digit c = true).
  { destruct Hi as [->|(c & d & -> & [C1 C2] & _)]; [now exists 48, []|].
    exists c, d. split; [reflexivity|]. unfold is_digit.
    apply andb_true_iff. split; apply N.leb_le; lia. }
  assert (Rd : no_digit_ahead r) by (destruct r; [exact I|apply R]).
  assert (Ed : no_digit_ahead (e ++ r)).
  { destruct He as [->|(c & sg' & d & -> & [->| ->] & _)]; [exact Rd| |];
      reflexivity. }
  assert (Fd : no_digit_ahead (f ++ e ++ r)).
  { destruct Hf as [->|(d & -> & _)]; [exact Ed|reflexivity]. }
  unfold scan_number. rewrite <- !app_assoc.
  (* sign *)
  assert (Sg : scan_sign (sg ++ i ++ f ++ e ++ r) = (sg, i ++ f ++ e ++ r)).
  { destruct Hsg as [->| ->]; [|reflexivity].
    destruct Di as (c & t & -> & C). cbn.
    destruct (N.eqb_spec c 45) as [->|]; [discriminate C|reflexivity]. }
  rewrite Sg.
  (* integer *)
  assert (In : scan_int (i ++ f ++ e ++ r) = Some (i, f ++ e ++ r)).
  { destruct Hi as [->|(c & d & -> & [C1 C2] & D)]; [reflexivity|].
    cbn. destruct (N.eqb_spec c 48) as [->|]; [lia|].
    replace ((49 <=? c) && (c <=? 57)) with true
      by (symmetry; apply andb_true_iff; split; apply N.leb_le; lia).
    now rewrite (span_digits_app d _ D Fd). }
  rewrite In.
  (* fraction *)
  assert (Fr : scan_frac (f ++ e ++ r) = (f, e ++ r)).
  { destruct Hf as [->|(d & -> & Dn & D)].
    - cbn [app]. destruct He as [->|(c & sg' & d & -> & Hc & _)].
      + cbn [app]. destruct r as [|c r]; [reflexivity|].
        destruct R as (_ & R & _). cbn.
        destruct (N.eqb_spec c 46); [contradiction|reflexivity].
      + cbn. destruct Hc as [->| ->]; reflexivity.
    - cbn. rewrite (span_digits_app d _ D Ed).
      destruct d; [contradiction|reflexivity]. }
  rewrite Fr.
  (* exponent *)
  assert (Ex : scan_exp (e ++ r) = (e, r)).
  { destruct He as [->|(c & sg' & d & -> & Hc & Hs & Dn & D)].
    - cbn [app]. destruct r as [|c r]; [reflexivity|].
      destruct R as (_ & _ & R1 & R2). cbn.
      destruct (N.eqb_spec c 101); [contradiction|].
      destruct (N.eqb_spec c 69); [contradiction|reflexivity].
    - cbn [app scan_exp].
      replace ((c =? 101) || (c =? 69)) with true
        by (destruct Hc as [->| ->]; reflexivity).
      rewrite <- app_assoc.
      assert (Sp : scan_exp_sign (sg' ++ d ++ r) = (sg', d ++ r)).
      { destruct Hs as [->|[->| ->]]; [|reflexivity|reflexivity].
        destruct d as [|x d]; [contradiction|]. cbn in *.
        apply andb_true_iff in D as [X _].
        destruct (N.eqb_spec x 43) as [->|]; [discriminate X|].
        destruct (N.eqb_spec x 45) as [->|]; [discriminate X|reflexivity]. }
      rewrite Sp, (span_digits_app d r D Rd).
      destruct d; [contradiction|reflexivity]. }
  now rewrite Ex.
Qed.

(** ** String literals *)







Lemma scan_string_sound (s str r : jsstring) :
  scan_string s = Some (str, r) ->
  exists body, s = body ++ 34 :: r /\ string_characters body.
Proof.
  remember (List.length s) as n eqn:Len.
  revert s str Len. induction n as [n IH] using lt_wf_ind. intros s str ->.
  destruct s as [|c s]; [discriminate|]. cbn [scan_string].
  destruct (N.eqb_spec c 34) as [->|N34].
  { intros E. injection E as <- <-. exists [].
    split; [reflexivity|constructor]. }
  destruct (N.eqb_spec c 92) as [->|N92].
  - destruct s as [|e s]; [discriminate|].
    destruct (N.eqb_spec e 117) as [->|].
    + destruct s as [|a [|b [|c' [|d s]]]]; try discriminate.
      destruct (is_hex a && is_hex b && is_hex c' && is_hex d) eqn:X;
        [|discriminate].
      apply andb_true_iff in X as [X Xd]. apply andb_true_iff in X as [X Xc].
      apply andb_true_iff in X as [Xa Xb].
      destruct (scan_string s) as [[str' r']|] eqn:S; [|discriminate].
      intros E. injection E as <- <-.
      destruct (IH (List.length s) ltac:(cbn; lia) s str' eq_refl S)
        as (body & -> & B).
      exists (92 :: 117 :: a :: b :: c' :: d :: body).
      split; [reflexivity|now constructor].
    + destruct (escaped e) as [u|] eqn:U; [|discriminate].
      destruct (scan_string s) as [[str' r']|] eqn:S; [|discriminate].
      intros E. injection E as <- <-.
      destruct (IH (List.length s) ltac:(cbn; lia) s str' eq_refl S)
        as (body & -> & B).
      exists (92 :: e :: body). split; [reflexivity|].
      constructor; [congruence|assumption].
  - destruct (N.leb_spec 32 c) as [L|]; [|discriminate].
    destruct (scan_string s) as [[str' r']|] eqn:S; [|discriminate].
    intros E. injection E as <- <-.
    destruct (IH (List.length s) ltac:(cbn; lia) s str' eq_refl S)
      as (body & -> & B).
    exists (c :: body). split; [reflexivity|].
    constructor; [|assumption]. unfold is_plain.
    destruct (N.leb_spec 32 c); [|lia].
    destruct (N.eqb_spec c 34); [contradiction|].
    destruct (N.eqb_spec c 92); [contradiction|reflexivity].
Qed.

(** Every string literal of the grammar is read, up to its closing
    quotation mark. *)
Lemma scan_string_complete (body r : jsstring) :
  string_characters body ->
  exists str, scan_string (body ++ 34 :: r) = Some (str, r).
Proof.
  induction 1 as [|c s P _ [str IH]|c s E _ [str IH]
                  |a b c d s Ha Hb Hc Hd _ [str IH]].
  - now exists [].
  - exists (c :: str). cbn [app scan_string]. unfold is_plain in P.
    apply andb_true_iff in P as [P N92]. apply andb_true_iff in P as [L N34].
    destruct (c =? 34); [discriminate|]. destruct (c =? 92); [discriminate|].
    now rewrite L, IH.
  - destruct (escaped c) as [u|] eqn:U; [|contradiction].
    exists (u :: str). cbn [app scan_string].
    change (92 =? 34) with false. change (92 =? 92) with true. cbv iota.
    destruct (N.eqb_spec c 117) as [->|]; [discriminate U|].
    now rewrite U, IH.
  - eexists. cbn [app scan_string].
    change (92 =? 34) with false. change (92 =? 92) with true.
    change (117 =? 117) with true. cbv iota.
    rewrite Ha, Hb, Hc, Hd, IH. reflexivity.
Qed.

(** ** JSON.parse accepts only JSON texts *)

Lemma option_map_pair {A B : Type} (a : A) (o : option B) (x : A) (r : B) :
  option_map (pair a) o = Some (x, r) -> x = a /\ o = Some r.
Proof.
  destruct o; cbn; [|discriminate]. intros E. now injection E as <- <-.
Qed.

(** The three functions of the parser, one call unfolded. *)
Lemma parse_value_eq (fuel : nat) (s : jsstring) :
  parse_value (S fuel) s
  = match skip_ws s with
    | [] => None
    | c :: s' =>
        if c =? 110 then option_map (pair VNull) (after_prefix (js "ull") s')
        else if c =? 116 then
          option_map (pair (VBool true)) (after_prefix (js "rue") s')
        else if c =? 102 then
          option_map (pair (VBool false)) (after_prefix (js "alse") s')
        else if c =? 34 then
          match scan_string s' with
          | Some (str, r) => Some (VStr str, r)
          | None => None
          end
        else if c =? 91 then
          match after_prefix [93] (skip_ws s') with
          | Some r => Some (VArr [], r)
          | None =>
              match parse_elements fuel s' with
              | Some (items, r) => Some (VArr items, r)
              | None => None
              end
          end
        else if c =? 123 then
          match after_prefix [125] (skip_ws s') with
          | Some r => Some (VObj [], r)
          | None =>
              match parse_members fuel s' with
              | Some (members, r) => Some (VObj (object_of members), r)
              | None => None
              end
          end
        else
          match scan_number (c :: s') with
          | Some (lexeme, r) => Some (VNum (Number_ofLiteral lexeme), r)
          | None => None
          end
    end.
Proof. reflexivity. Qed.

Lemma parse_elements_eq (fuel : nat) (s : jsstring) :
  parse_elements (S fuel) s
  = match parse_value fuel s with
    | Some (v, r) =>
        match skip_ws r with
        | c :: r' =>
            if c =? 93 then Some ([v], r')
            else if c =? 44 then
              match parse_elements fuel r' with
              | Some (vs, r2) => Some (v :: vs, r2)
              | None => None
              end
            else None
        | [] => None
        end
    | None => None
    end.
Proof. reflexivity. Qed.

Lemma parse_members_eq (fuel : nat) (s : jsstring) :
  parse_members (S fuel) s
  = match after_prefix [34] (skip_ws s) with
    | Some s0 =>
        match scan_string s0 with
        | Some (k, r1) =>
            match after_prefix [58] (skip_ws r1) with
            | Some r2 =>
                match parse_value fuel r2 with
                | Some (v, r3) =>
                    match skip_ws r3 with
                    | c :: r4 =>
                        if c =? 125 then Some ([(k, v)], r4)
                        else if c =? 44 then
                          match parse_members fuel r4 with
                          | Some (ms, r5) => Some ((k, v) :: ms, r5)
                          | None => None
                          end
                        else None
                    | [] => None
                    end
                | None => None
                end
            | None => None
            end
        | None => None
        end
    | None => None
    end.
Proof. reflexivity. Qed.

(** What the three functions of the parser consumed is a value, the
    elements of an array up to its bracket, the members of an object up to
    its brace. *)
Lemma parse_fuel_sound (fuel : nat) :
  (forall s v r, parse_value fuel s = Some (v, r) ->
     exists w lexeme,
       s = w ++ lexeme ++ r /\ whitespace w /\ json_value lexeme)
  /\ (forall s vs r, parse_elements fuel s = Some (vs, r) ->
        exists es, s = es ++ 93 :: r /\ json_elements es)
  /\ (forall s ms r, parse_members fuel s = Some (ms, r) ->
        exists t, s = t ++ 125 :: r /\ json_members t).
Proof.
  induction fuel as [|fuel (IHv & IHe & IHm)]; [now repeat split|].
  repeat split.
  - intros s v r. rewrite parse_value_eq.
    destruct (skip_ws_spec s) as (w & Es & W).
    destruct (skip_ws s) as [|c s']; [discriminate|].
    rewrite Es. clear Es.
    destruct (N.eqb_spec c 110) as [->|_].
    { intros [-> E%after_prefix_spec]%option_map_pair. subst s'.
      exists w, (js "null"). repeat split; [assumption|constructor]. }
    destruct (N.eqb_spec c 116) as [->|_].
    { intros [-> E%after_prefix_spec]%option_map_pair. subst s'.
      exists w, (js "true"). repeat split; [assumption|constructor]. }
    destruct (N.eqb_spec c 102) as [->|_].
    { intros [-> E%after_prefix_spec]%option_map_pair. subst s'.
      exists w, (js "false"). repeat split; [assumption|constructor]. }
    destruct (N.eqb_spec c 34) as [->|_].
    { destruct (scan_string s') as [[str r']|] eqn:S; [|discriminate].
      intros E. injection E as <- <-.
      apply scan_string_sound in S as (body & -> & B).
      exists w, (34 :: body ++ [34]).
      repeat split; [|assumption|now constructor].
      cbn. now rewrite <- app_assoc. }
    destruct (N.eqb_spec c 91) as [->|_].
    { destruct (skip_ws_spec s') as (w' & Es' & W').
      destruct (after_prefix [93] (skip_ws s')) as [r'|] eqn:A.
      - intros E. injection E as <- <-.
        apply after_prefix_spec in A. rewrite A in Es'. subst s'.
        exists w, (91 :: w' ++ [93]).
        repeat split; [|assumption|now constructor].
        cbn. now rewrite <- app_assoc.
      - destruct (parse_elements fuel s') as [[items r']|] eqn:P;
          [|discriminate].
        intros E. injection E as <- <-.
        apply IHe in P as (es & -> & Je).
        exists w, (91 :: es ++ [93]).
        repeat split; [|assumption|now constructor].
        cbn. now rewrite <- app_assoc. }
    destruct (N.eqb_spec c 123) as [->|_].
    { destruct (skip_ws_spec s') as (w' & Es' & W').
      destruct (after_prefix [125] (skip_ws s')) as [r'|] eqn:A.
      - intros E. injection E as <- <-.
        apply after_prefix_spec in A. rewrite A in Es'. subst s'.
        exists w, (123 :: w' ++ [125]).
        repeat split; [|assumption|now constructor].
        cbn. now rewrite <- app_assoc.
      - destruct (parse_members fuel s') as [[members r']|] eqn:P;
          [|discriminate].
        intros E. injection E as <- <-.
        apply IHm in P as (t & -> & Jm).
        exists w, (123 :: t ++ [125]).
        repeat split; [|assumption|now constructor].
        cbn. now rewrite <- app_assoc. }
    destruct (scan_number (c :: s')) as [[lexeme r']|] eqn:S; [|discriminate].
    intros E. injection E as <- <-.
    apply scan_number_sound in S as [-> L].
    exists w, lexeme. repeat split; [assumption|now constructor].
  - intros s vs r. rewrite parse_elements_eq.
    destruct (parse_value fuel s) as [[v r0]|] eqn:P; [|discriminate].
    apply IHv in P as (w1 & lexeme & -> & W1 & J).
    destruct (skip_ws_spec r0) as (w2 & E0 & W2).
    destruct (skip_ws r0) as [|c r1]; [discriminate|]. rewrite E0. clear E0.
    destruct (N.eqb_spec c 93) as [->|_].
    { intros E. injection E as <- <-.
      exists (w1 ++ lexeme ++ w2). split; [now rewrite <- !app_assoc|].
      now constructor. }
    destruct (N.eqb_spec c 44) as [->|_]; [|discriminate].
    destruct (parse_elements fuel r1) as [[vs' r2]|] eqn:Q; [|discriminate].
    intros E. injection E as <- <-.
    apply IHe in Q as (es & -> & Je).
    exists (w1 ++ lexeme ++ w2 ++ 44 :: es). split; [|now constructor].
    now rewrite <- !app_assoc.
  - intros s ms r. rewrite parse_members_eq.
    destruct (skip_ws_spec s) as (w1 & Es & W1).
    destruct (after_prefix [34] (skip_ws s)) as [s0|] eqn:A; [|discriminate].
    apply after_prefix_spec in A. rewrite A in Es. clear A. subst s.
    destruct (scan_string s0) as [[k r1]|] eqn:S; [|discriminate].
    apply scan_string_sound in S as (body & -> & B).
    destruct (skip_ws_spec r1) as (w2 & E1 & W2).
    destruct (after_prefix [58] (skip_ws r1)) as [r2|] eqn:A; [|discriminate].
    apply after_prefix_spec in A. rewrite A in E1. clear A. subst r1.
    destruct (parse_value fuel r2) as [[v r3]|] eqn:P; [|discriminate].
    apply IHv in P as (w3 & lexeme & -> & W3 & J).
    destruct (skip_ws_spec r3) as (w4 & E3 & W4).
    destruct (skip_ws r3) as [|c r4]; [discriminate|]. rewrite E3. clear E3.
    destruct (N.eqb_spec c 125) as [->|_].
    { intros E. injection E as <- <-.
      exists (w1 ++ 34 :: body ++ 34 :: w2 ++ 58 :: w3 ++ lexeme ++ w4).
      split; [|now constructor].
      cbn. repeat (rewrite <- ?app_assoc; cbn). reflexivity. }
    destruct (N.eqb_spec c 44) as [->|_]; [|discriminate].
    destruct (parse_members fuel r4) as [[ms' r5]|] eqn:Q; [|discriminate].
    intros E. injection E as <- <-.
    apply IHm in Q as (t & -> & Jm).
    exists (w1 ++ 34 :: body ++ 34 :: w2 ++ 58 :: w3 ++ lexeme ++ w4
              ++ 44 :: t).
    split; [|now constructor].
    cbn. repeat (rewrite <- ?app_assoc; cbn). reflexivity.
Qed.

(** JSON.parse returns a value only for a JSON text. *)
Lemma parse_sound (text : jsstring) (v : value num) :
  parse text = Normal v -> valid_json text.
Proof.
  unfold parse.
  destruct (parse_value (S (List.length text)) text) as [[v' r]|] eqn:P;
    [|discriminate].
  destruct (skip_ws_spec r) as (w2 & Er & W2).
  destruct (skip_ws r); [|discriminate]. intros _.
  apply parse_fuel_sound in P as (w1 & lexeme & -> & W1 & J).
  exists w1, lexeme, w2. rewrite app_nil_r in Er. now subst r.
Qed.

(** On any other text it throws a SyntaxError. *)
Lemma parse_invalid (text : jsstring) :
  ~ valid_json text ->
  parse text = Throw SyntaxError.
Proof.
  intros N. destruct (parse text) as [v|e] eqn:P.
  - now apply parse_sound in P.
  - revert P. unfold parse.
    destruct (parse_value _ text) as [[v r]|]; [|now intros E].
    destruct (skip_ws r); [discriminate|now intros E].
Qed.

(** ** The keys of an object *)







(** ** JSON.parse reads back what JSON.stringify wrote *)


(** The first character of a number literal. *)
Lemma number_literal_head (lexeme : jsstring) :
  number_literal lexeme ->
  exists c t, lexeme = c :: t /\ (c = 45 \/ is_digit c = true).
Proof.
  intros [sg i f e Hsg Hi Hf He].
  assert (Di : exists c t, i = c :: t /\ is_digit c = true).
  { destruct Hi as [->|(c & d & -> & [C1 C2] & _)]; [now exists 48, []|].
    exists c, d. split; [reflexivity|]. unfold is_digit.
    apply andb_true_iff. split; apply N.leb_le; lia. }
  destruct Di as (c & t & -> & C).
  destruct Hsg as [->| ->]; cbn; eauto.
Qed.

Lemma digit_starts_value (c : N) :
  c = 45 \/ is_digit c = true ->
  starts_value c
  /\ c <> 110 /\ c <> 116 /\ c <> 102 /\ c <> 34 /\ c <> 91 /\ c <> 123.
Proof.
  intros [->|D].
  - unfold starts_value. repeat split; lia || reflexivity.
  - unfold is_digit in D. apply andb_true_iff in D as [L U].
    apply N.leb_le in L, U. unfold starts_value, is_ws.
    repeat split; try lia.
    destruct (N.eqb_spec c 9); [lia|]. destruct (N.eqb_spec c 10); [lia|].
    destruct (N.eqb_spec c 13); [lia|]. destruct (N.eqb_spec c 32); [lia|].
    reflexivity.
Qed.




Lemma ends_number_cons (c : N) (r : jsstring) :
  c = 44 \/ c = 93 \/ c = 125 -> ends_number (c :: r).
Proof. intros [->|[->| ->]]; cbn; repeat split; lia. Qed.


(** Decides the tests on the characters that are known. *)
Ltac decide_chars :=
  repeat first
    [ rewrite skip_ws_head by reflexivity
    | match goal with
      | |- context [is_ws ?a] =>
          let v := eval vm_compute in (is_ws a) in
          progress change (is_ws a) with v
      | |- context [N.eqb ?a ?b] =>
          let v := eval vm_compute in (N.eqb a b) in
          progress change (N.eqb a b) with v
      end
    | progress cbv iota ].




(** ** JSON.parse accepts every JSON text *)

Scheme json_value_min := Minimality for json_value Sort Prop
  with json_elements_min := Minimality for json_elements Sort Prop
  with json_members_min := Minimality for json_members Sort Prop.
Combined Scheme json_grammar_ind
  from json_value_min, json_elements_min, json_members_min.

Lemma ws_ends_number (c : N) (r : jsstring) :
  is_ws c = true -> ends_number (c :: r).
Proof.
  unfold is_ws. intros W. cbn. unfold is_digit.
  destruct (N.eqb_spec c 9) as [->|]; [repeat split; lia || reflexivity|].
  destruct (N.eqb_spec c 10) as [->|]; [repeat split; lia || reflexivity|].
  destruct (N.eqb_spec c 13) as [->|]; [repeat split; lia || reflexivity|].
  destruct (N.eqb_spec c 32) as [->|]; [repeat split; lia || reflexivity|].
  discriminate W.
Qed.

Lemma whitespace_ends_number (w r : jsstring) :
  whitespace w -> ends_number r -> ends_number (w ++ r).
Proof.
  destruct w as [|c w]; [easy|]. unfold whitespace. cbn [forallb app].
  intros [C _]%andb_true_iff _. now apply ws_ends_number.
Qed.

Lemma json_value_head (lexeme : jsstring) :
  json_value lexeme -> exists c t, lexeme = c :: t /\ starts_value c.
Proof.
  unfold starts_value.
  destruct 1 as [| | |s L|s _|w _|es _|w _|ms _].
  - exists 110. eexists. repeat split; lia || reflexivity.
  - exists 116. eexists. repeat split; lia || reflexivity.
  - exists 102. eexists. repeat split; lia || reflexivity.
  - destruct (number_literal_head _ L) as (c & t & -> & C).
    exists c, t. split; [reflexivity|]. now apply digit_starts_value.
  - exists 34. eexists. repeat split; lia || reflexivity.
  - exists 91. eexists. repeat split; lia || reflexivity.
  - exists 91. eexists. repeat split; lia || reflexivity.
  - exists 123. eexists. repeat split; lia || reflexivity.
  - exists 123. eexists. repeat split; lia || reflexivity.
Qed.

(** What the elements of an array and the members of an object start
    with, after white space. *)
Lemma json_elements_head (es r : jsstring) :
  json_elements es ->
  exists c t, skip_ws (es ++ r) = c :: t /\ starts_value c.
Proof.
  destruct 1 as [w1 v w2 W1 J _|w1 v w2 es' W1 J _ _];
    destruct (json_value_head v J) as (c & t & -> & S);
    rewrite <- app_assoc, skip_ws_app by assumption; cbn [app];
    rewrite skip_ws_head by apply S; eauto.
Qed.

Lemma json_members_head (ms r : jsstring) :
  json_members ms -> exists t, skip_ws (ms ++ r) = 34 :: t.
Proof.
  destruct 1; rewrite <- app_assoc, skip_ws_app by assumption; cbn [app];
    rewrite skip_ws_head by reflexivity; eauto.
Qed.

(** With fuel for the length of the text, each function of the parser
    reads what the grammar derives. *)
Lemma parse_fuel_complete :
  (forall lexeme, json_value lexeme ->
     forall w r fuel, whitespace w -> ends_number r ->
       (List.length lexeme <= fuel)%nat ->
       exists v, parse_value fuel (w ++ lexeme ++ r) = Some (v, r))
  /\ (forall es, json_elements es ->
        forall r fuel, (List.length es + 1 <= fuel)%nat ->
          exists vs, parse_elements fuel (es ++ 93 :: r) = Some (vs, r))
  /\ (forall ms, json_members ms ->
        forall r fuel, (List.length ms + 1 <= fuel)%nat ->
          exists m, parse_members fuel (ms ++ 125 :: r) = Some (m, r)).
Proof.
  apply json_grammar_ind.
  - intros w r [|fuel] W E L; [cbn in L; lia|]. rewrite parse_value_eq.
    rewrite skip_ws_app by assumption.
    change (js "null") with (110 :: js "ull"). cbn [app]. decide_chars.
    rewrite after_prefix_app. now eexists.
  - intros w r [|fuel] W E L; [cbn in L; lia|]. rewrite parse_value_eq.
    rewrite skip_ws_app by assumption.
    change (js "true") with (116 :: js "rue"). cbn [app]. decide_chars.
    rewrite after_prefix_app. now eexists.
  - intros w r [|fuel] W E L; [cbn in L; lia|]. rewrite parse_value_eq.
    rewrite skip_ws_app by assumption.
    change (js "false") with (102 :: js "alse"). cbn [app]. decide_chars.
    rewrite after_prefix_app. now eexists.
  - intros s Lit w r [|fuel] W E L.
    { destruct (number_literal_head _ Lit) as (c & t & -> & _). cbn in L. lia. }
    rewrite parse_value_eq. rewrite skip_ws_app by assumption.
    destruct (number_literal_head _ Lit) as (c & t & Et & C).
    destruct (digit_starts_value c C) as ([Wc _] & N1 & N2 & N3 & N4 & N5 & N6).
    rewrite Et. cbn [app]. rewrite (skip_ws_head _ _ Wc).
    destruct (N.eqb_spec c 110); [contradiction|].
    destruct (N.eqb_spec c 116); [contradiction|].
    destruct (N.eqb_spec c 102); [contradiction|].
    destruct (N.eqb_spec c 34); [contradiction|].
    destruct (N.eqb_spec c 91); [contradiction|].
    destruct (N.eqb_spec c 123); [contradiction|].
    change (c :: t ++ r) with ((c :: t) ++ r). rewrite <- Et.
    rewrite (scan_number_complete _ _ Lit E). now eexists.
  - intros s Cs w r [|fuel] W E L; [cbn in L; lia|]. rewrite parse_value_eq.
    rewrite skip_ws_app by assumption. cbn [app]. rewrite <- app_assoc.
    cbn [app]. decide_chars.
    destruct (scan_string_complete s r Cs) as [str ->]. now eexists.
  - intros w' W' w r [|fuel] W E L; [cbn in L; lia|]. rewrite parse_value_eq.
    rewrite skip_ws_app by assumption. cbn [app]. rewrite <- app_assoc.
    cbn [app]. decide_chars. rewrite skip_ws_app by assumption.
    decide_chars. cbn [after_prefix]. decide_chars. now eexists.
  - intros es Je IH w r [|fuel] W E L; [cbn in L; lia|]. rewrite parse_value_eq.
    rewrite skip_ws_app by assumption. cbn [app]. rewrite <- app_assoc.
    cbn [app]. decide_chars.
    destruct (json_elements_head es (93 :: r) Je) as (c & t & -> & _ & N93 & _).
    cbn [after_prefix].
    destruct (N.eqb_spec 93 c); [congruence|].
    destruct (IH r fuel) as [vs ->]; [|now eexists].
    cbn [List.length] in L. rewrite length_app in L. cbn in L. lia.
  - intros w' W' w r [|fuel] W E L; [cbn in L; lia|]. rewrite parse_value_eq.
    rewrite skip_ws_app by assumption. cbn [app]. rewrite <- app_assoc.
    cbn [app]. decide_chars. rewrite skip_ws_app by assumption.
    decide_chars. cbn [after_prefix]. decide_chars. now eexists.
  - intros ms Jm IH w r [|fuel] W E L; [cbn in L; lia|]. rewrite parse_value_eq.
    rewrite skip_ws_app by assumption. cbn [app]. rewrite <- app_assoc.
    cbn [app]. decide_chars.
    destruct (json_members_head ms (125 :: r) Jm) as (t & ->).
    cbn [after_prefix]. decide_chars.
    destruct (IH r fuel) as [m ->]; [|now eexists].
    cbn [List.length] in L. rewrite length_app in L. cbn in L. lia.
  - intros w1 v w2 W1 J IH W2 r [|fuel] L; [lia|]. rewrite parse_elements_eq.
    rewrite <- !app_assoc. rewrite !length_app in L.
    destruct (IH w1 (w2 ++ 93 :: r) fuel) as [x ->];
      [assumption|apply whitespace_ends_number;
                  [assumption|apply ends_number_cons; tauto]|lia|].
    rewrite skip_ws_app by assumption. decide_chars. now eexists.
  - intros w1 v w2 es W1 J IHv W2 Je IHe r [|fuel] L; [lia|].
    rewrite parse_elements_eq.
    repeat (rewrite <- ?app_assoc; cbn [app]).
    rewrite !length_app in L. cbn [List.length] in L.
    destruct (IHv w1 (w2 ++ 44 :: es ++ 93 :: r) fuel) as [x ->];
      [assumption|apply whitespace_ends_number;
                  [assumption|apply ends_number_cons; tauto]|lia|].
    rewrite skip_ws_app by assumption. decide_chars.
    destruct (IHe r fuel) as [vs ->]; [lia|now eexists].
  - intros w1 k w2 w3 v w4 W1 K W2 W3 J IH W4 r [|fuel] L; [lia|].
    rewrite parse_members_eq.
    rewrite !length_app in L. cbn [List.length] in L.
    rewrite !length_app in L. cbn [List.length] in L.
    rewrite !length_app in L. cbn [List.length] in L.
    rewrite !length_app in L.
    repeat (rewrite <- ?app_assoc; cbn [app]).
    rewrite skip_ws_app by assumption. decide_chars.
    cbn [after_prefix]. decide_chars.
    destruct (scan_string_complete k (w2 ++ 58 :: w3 ++ v ++ w4 ++ 125 :: r) K)
      as [str ->].
    rewrite skip_ws_app by assumption. decide_chars.
    cbn [after_prefix]. decide_chars.
    destruct (IH w3 (w4 ++ 125 :: r) fuel) as [x ->];
      [assumption|apply whitespace_ends_number;
                  [assumption|apply ends_number_cons; tauto]|lia|].
    rewrite skip_ws_app by assumption. decide_chars. now eexists.
  - intros w1 k w2 w3 v w4 ms W1 K W2 W3 J IHv W4 Jm IHm r [|fuel] L; [lia|].
    rewrite parse_members_eq.
    rewrite !length_app in L. cbn [List.length] in L.
    rewrite !length_app in L. cbn [List.length] in L.
    rewrite !length_app in L. cbn [List.length] in L.
    rewrite !length_app in L. cbn [List.length] in L.
    repeat (rewrite <- ?app_assoc; cbn [app]).
    rewrite skip_ws_app by assumption. decide_chars.
    cbn [after_prefix]. decide_chars.
    destruct (scan_string_complete k
                (w2 ++ 58 :: w3 ++ v ++ w4 ++ 44 :: ms ++ 125 :: r) K)
      as [str ->].
    rewrite skip_ws_app by assumption. decide_chars.
    cbn [after_prefix]. decide_chars.
    destruct (IHv w3 (w4 ++ 44 :: ms ++ 125 :: r) fuel) as [x ->];
      [assumption|apply whitespace_ends_number;
                  [assumption|apply ends_number_cons; tauto]|lia|].
    rewrite skip_ws_app by assumption. decide_chars.
    destruct (IHm r fuel) as [m ->]; [lia|now eexists].
Qed.

(** JSON.parse returns a value for every JSON text. *)
Lemma parse_complete (text : jsstring) :
  valid_json text -> exists v, parse text = Normal v.
Proof.
  intros (w1 & lexeme & w2 & -> & W1 & J & W2). unfold parse.
  destruct parse_fuel_complete as [P _].
  destruct (P lexeme J w1 w2 (S (List.length (w1 ++ lexeme ++ w2)))) as [v ->].
  - assumption.
  - rewrite <- (app_nil_r w2). now apply whitespace_ends_number.
  - rewrite !length_app. lia.
  - exists v. rewrite <- (app_nil_r w2), skip_ws_app by assumption.
    reflexivity.
Qed.

(** The texts on which JSON.parse throws are those that are no JSON
    texts. *)
Lemma parse_throws_iff (text : jsstring) :
  (exists e, parse text = Throw e) <-> ~ valid_json text.
Proof.
  split.
  - intros [e E] [v V]%parse_complete. congruence.
  - intros N. rewrite (parse_invalid text N). now eexists.
Qed.

End JsonFacts.

(** ** Binary64 numbers that JSON represents *)

Section Binary64Facts.
Import JsonBridge Json SpecFloat Binary64.




End Binary64Facts.

(** * The claims about the JSON bridge *)

Section Bridge.
Import JsonBridge Json.
Context {num fn : Type} `{Host num}.





(** C9: on a text that the JSON grammar does not derive, JSON.parse throws
    a SyntaxError (the ParseError of the specification) and [fromJSON]
    throws it on, whatever the prototype; it returns no value. *)
Theorem fromJSON_invalid (proto : prototype num fn) (json : jsstring) :
  ~ valid_json json ->
  JSON_parse json = Throw SyntaxError
  /\ fromJSON proto json = Throw SyntaxError.
Proof.
  intros N. pose proof (parse_invalid json N) as E.
  split; [exact E|]. unfold fromJSON.
  change (JSON_parse json) with (parse json). now rewrite E.
Qed.

End Bridge.

Import JsonBridge.

Section BridgeExamples.
Import Json SpecFloat Binary64.



(** The text of the specification: its brace is followed by no string. *)
Lemma fromJSON_invalid_witness :
  ~ valid_json (js "{not valid json")
  /\ JSON_parse (num := spec_float) (js "{not valid json") = Throw SyntaxError
  /\ fromJSON (fn := unit) [(js "getArea", Method (num := spec_float) tt)]
       (js "{not valid json")
     = Throw SyntaxError.
Proof.
  assert (N : ~ valid_json (js "{not valid json")).
  { intros [v V]%(parse_complete (num := spec_float)).
    vm_compute in V. discriminate V. }
  split; [exact N|].
  exact (fromJSON_invalid [(js "getArea", Method tt)] _ N).
Defined.

End BridgeExamples.

(** * Further properties of the selector builder *)

Lemma accepts_snoc (st : Watermark.state) (l : list Category) (c : Category) :
  Watermark.accepts st (l ++ [c])
  = Watermark.accepts st l
    && Watermark.legal (fold_left Watermark.advance l st) c.
Proof.
  revert st. induction l as [|d l IH]; intros st; cbn.
  - now rewrite andb_true_r.
  - now rewrite IH, andb_assoc.
Qed.

Lemma appends_app (l1 l2 : list call) (this : ref) (h : Heap) :
  appends this (l1 ++ l2) h
  = bind (appends this l1) (fun r => appends r l2) h.
Proof.
  revert this h. induction l1 as [|[c v] l1 IH]; intros this h; [reflexivity|].
  cbn [app appends]. unfold bind.
  destruct (method_of c this v h) as [[r|e] h']; [|reflexivity].
  rewrite IH. reflexivity.
Qed.

(** The calls of a chain write to one object only. *)
Lemma appends_heap (calls : list call) (this : ref) (h : Heap) (b : Builder) :
  h !! this = Some b ->
  exists b', snd (appends this calls h) = <[this := b']> h.
Proof.
  revert h b. induction calls as [|[c v] calls IH]; intros h b H.
  - exists b. cbn. now rewrite list_insert_id.
  - cbn [appends]. unfold bind. rewrite (method_of_spec _ _ _ _ _ H).
    destruct (refusal c b).
    + exists b. cbn. now rewrite list_insert_id.
    + destruct (IH _ _ (lookup_store this (extended (c, v) b) h b H))
        as [b' E].
      exists b'. rewrite E. apply list_insert_insert_eq.
Qed.

(** X1: a call through the facade never throws; it returns a reference that
    denoted no object before, to a new object whose text is the rendering of
    the fragment, and the objects that existed are as they were. *)
Theorem facade_call_is_fresh (c : Category) (v : string) (h : Heap) :
  exists b : Builder,
    facade_of c v h = (Normal (List.length h), h ++ [b])
    /\ selectorString b = render (c, v)
    /\ (forall d : Category, flag d b = Category_eqb d c)
    /\ h !! List.length h = None.
Proof.
  exists (built [(c, v)]). split; [apply facade_of_spec|]. split.
  - cbn. apply append_nil_r.
  - split; [|now apply lookup_ge_None_2].
    intros d. destruct d, c; reflexivity.
Qed.

(** X2: the chains of append calls that return are exactly those whose
    categories follow the grammar
    element? id? class* attribute* pseudoClass* pseudoElement? *)
Theorem accepted_chains_are_the_grammar (h : Heap) (first : call)
    (rest : list call) :
  is_normal (fst (chain first rest h)) = true
  <-> exists (e i : bool) (nc na np : nat) (pe : bool),
        categories (first :: rest)
        = Watermark.in_grammar_order e i nc na np pe.
Proof.
  rewrite chain_accepts, <- respects_order_accepts.
  apply respects_order_iff_grammar.
Qed.

(** X3: a chain stops at its first refused call: the calls after it are not
    made, the object holds the fragments appended before it, and the error is
    the one of that call. *)
Theorem chain_stops_at_first_refusal (h : Heap) (first : call)
    (pre post : list call) (c : Category) (v : string) :
  Watermark.accepts Watermark.initial (categories (first :: pre)) = true ->
  Watermark.legal (tracked (categories (first :: pre))) c = false ->
  chain first (pre ++ (c, v) :: post) h
  = (Throw (if Watermark.at_most_one c
               && appended c (categories (first :: pre))
            then DuplicateError else OrderError),
     h ++ [built (first :: pre)]).
Proof.
  intros A L. rewrite chain_appends.
  change (first :: pre ++ (c, v) :: post)
    with ((first :: pre) ++ (c, v) :: post).
  rewrite appends_app. unfold bind.
  rewrite (appends_built _ [] _ _ (lookup_new h _) A), insert_new.
  cbn [app appends]. unfold bind.
  now rewrite (method_of_built _ c v _ _ (lookup_new h _)), L.
Qed.

Lemma chain_stops_at_first_refusal_witness :
  chain (catId, "x") ([(catAttribute, "href")] ++ (catClass, "late")
                        :: [(catPseudoClass, "hover")]) []
  = (Throw OrderError, [built [(catId, "x"); (catAttribute, "href")]]).
Proof.
  exact (chain_stops_at_first_refusal [] (catId, "x") [(catAttribute, "href")]
           [(catPseudoClass, "hover")] catClass "late" eq_refl eq_refl).
Defined.

(** X4: an append call writes to its receiver only: the heap keeps its
    size and every other object is as it was, whether the call returns or
    throws. *)
Theorem append_writes_receiver_only (c : Category) (this : ref) (v : string)
    (h : Heap) :
  List.length (snd (method_of c this v h)) = List.length h
  /\ forall o : ref, o <> this -> snd (method_of c this v h) !! o = h !! o.
Proof.
  destruct (h !! this) as [b|] eqn:H.
  - rewrite (method_of_spec _ _ _ _ _ H). destruct (refusal c b); cbn.
    + now split.
    + split; [apply length_insert|].
      intros o Ho. apply list_lookup_insert_ne. congruence.
  - rewrite (method_of_None _ _ _ _ H). now split.
Qed.

Lemma append_writes_receiver_only_witness :
  snd (method_of catClass 1 "c"
         [built [(catElement, "a")]; built [(catId, "x")]]) !! 0
  = Some (built [(catElement, "a")]).
Proof.
  exact (proj2 (append_writes_receiver_only catClass 1 "c"
                  [built [(catElement, "a")]; built [(catId, "x")]])
           0 (fun E : 0 = 1 => O_S 0 E)).
Defined.

Lemma flag_text (c : Category) (text : string) (b : Builder) :
  flag c (set_selectorString text b) = flag c b.
Proof. now destruct c. Qed.

Lemma flag_extended (d : Category) (cl : call) (b : Builder) :
  flag d b = true -> flag d (extended cl b) = true.
Proof.
  destruct cl as [c v]. unfold extended. cbn [fst].
  destruct d, c; cbn; try exact (fun H => H); reflexivity.
Qed.

(** What the heap is after any call of a session. *)
Lemma perform_heap (op : operation) (h : Heap) :
  snd (perform op h) = h
  \/ (exists b, snd (perform op h) = h ++ [b])
  \/ (exists this b text,
        h !! this = Some b
        /\ snd (perform op h) = <[this := set_selectorString text b]> h)
  \/ (exists this b cl,
        h !! this = Some b
        /\ snd (perform op h) = <[this := extended cl b]> h).
Proof.
  destruct op as [c v|this c v|s1 k s2|this s1 k s2|this]; cbn [perform].
  - right. left. rewrite facade_of_spec. now eexists.
  - destruct (h !! this) as [b|] eqn:H.
    + rewrite (method_of_spec _ _ _ _ _ H). destruct (refusal c b); cbn.
      * now left.
      * right. right. right. now exists this, b, (c, v).
    + rewrite (method_of_None _ _ _ _ H). now left.
  - right. left.
    unfold cssSelectorBuilder.combine, bind. rewrite new_spec.
    destruct (Builder_combine_heap (List.length h) s1 s2 k
                (h ++ [built []]) _ (lookup_new h _)) as [E|[text E]];
      destruct (Builder.combine _ s1 k s2 _) as [r h']; cbn in *; subst h'.
    + now eexists.
    + rewrite insert_new. now eexists.
  - destruct (h !! this) as [b|] eqn:H.
    + destruct (Builder_combine_heap this s1 s2 k h b H) as [E|[text E]];
        destruct (Builder.combine this s1 k s2 h) as [r h']; cbn in *; subst h'.
      * now left.
      * right. right. left. now exists this, b, text.
    + left. unfold Builder.combine, bind, load. now rewrite H.
  - destruct (h !! this) as [b|] eqn:H.
    + right. right. left. rewrite (stringify_spec _ _ _ H).
      now exists this, b, "".
    + left. unfold Builder.stringify, bind, load. now rewrite H.
Qed.

(** X5: no call clears a flag: whatever the call (through the facade or on
    any object, an append, [combine] or [stringify], returning or throwing),
    an object whose flag of a category is set is still there after it, with
    the flag set. *)
Theorem flags_are_never_cleared (op : operation) (h : Heap) (r : ref)
    (b : Builder) (c : Category) :
  h !! r = Some b -> flag c b = true ->
  exists b' : Builder, snd (perform op h) !! r = Some b' /\ flag c b' = true.
Proof.
  intros H F.
  destruct (perform_heap op h)
    as [E|[[x E]|[(this & b0 & text & H0 & E)|(this & b0 & cl & H0 & E)]]];
    rewrite E.
  - now exists b.
  - exists b. split; [now apply lookup_app_l_Some|assumption].
  - destruct (Nat.eq_dec this r) as [->|N].
    + rewrite H in H0. injection H0 as <-.
      exists (set_selectorString text b).
      split; [eapply lookup_store, H|]. now rewrite flag_text.
    + exists b. split; [|assumption].
      now rewrite list_lookup_insert_ne.
  - destruct (Nat.eq_dec this r) as [->|N].
    + rewrite H in H0. injection H0 as <-.
      exists (extended cl b).
      split; [eapply lookup_store, H|]. now apply flag_extended.
    + exists b. split; [|assumption].
      now rewrite list_lookup_insert_ne.
Qed.

Lemma flags_are_never_cleared_witness :
  exists b' : Builder,
    snd (perform (Stringify 0) [built [(catElement, "a")]]) !! 0 = Some b'
    /\ flag catElement b' = true.
Proof.
  exact (flags_are_never_cleared (Stringify 0) [built [(catElement, "a")]]
           0 _ catElement eq_refl eq_refl).
Defined.

(** X6: [stringify()] does not make the object a new builder: an append
    after it is refused with the same error as it would have been before it,
    and one that is accepted starts the text again from the new fragment. *)
Theorem stringify_keeps_the_flags (h : Heap) (this : ref) (b : Builder)
    (c : Category) (v : string) :
  h !! this = Some b ->
  method_of c this v (snd (Builder.stringify this h))
  = match refusal c b with
    | Some e => (Throw e, snd (Builder.stringify this h))
    | None =>
        (Normal this,
         <[this := mark c (set_selectorString (render (c, v)) b)]> h)
    end.
Proof.
  intros H. rewrite (stringify_spec _ _ _ H). cbn [snd].
  rewrite (method_of_spec c this v _ _ (lookup_store _ _ _ _ H)).
  replace (refusal c (set_selectorString "" b)) with (refusal c b)
    by (now destruct c).
  destruct (refusal c b); [reflexivity|].
  now rewrite list_insert_insert_eq.
Qed.

Lemma stringify_keeps_the_flags_witness :
  method_of catElement 0 "b"
    (snd (Builder.stringify 0 [built [(catElement, "a")]]))
  = (Throw DuplicateError,
     snd (Builder.stringify 0 [built [(catElement, "a")]])).
Proof.
  exact (stringify_keeps_the_flags [built [(catElement, "a")]] 0 _
           catElement "b" eq_refl).
Defined.

(** X7: the object [combine] returns has no flag set, whatever was appended
    to its operands: an append of any category on it returns, and the
    fragment comes right after the text of the right operand. *)
Theorem combined_accepts_any_append (h : Heap) (a b : ref) (k : string)
    (sa sb : Builder) (c : Category) (v : string) :
  h !! a = Some sa -> h !! b = Some sb ->
  fst (combine_then_append a k b c v h)
  = Normal (selectorString sa +:+ " " +:+ k +:+ " " +:+ selectorString sb
              +:+ render (c, v)).
Proof.
  intros Ha Hb. unfold combine_then_append. unfold bind at 1.
  rewrite (combine_spec a b k h sa sb Ha Hb).
  change (set_selectorString ?t Builder.constructor) with (flagged [] t).
  unfold bind at 1.
  rewrite (method_of_flagged [] _ c v _ _ (lookup_new h _)).
  replace (Watermark.legal (tracked []) c) with true by (now destruct c).
  rewrite insert_new, (stringify_spec _ _ _ (lookup_new h _)). cbn [fst].
  cbn [selectorString flagged]. now rewrite !append_assoc.
Qed.

(** An element appended after the combination of two selectors that both
    end in a pseudo-element. *)
Lemma combined_accepts_any_append_witness :
  fst (combine_then_append 0 ">" 1 catElement "b"
         [built [(catElement, "p"); (catPseudoElement, "first-line")];
          built [(catElement, "a"); (catPseudoElement, "after")]])
  = Normal "p::first-line > a::afterb".
Proof.
  exact (combined_accepts_any_append
           [built [(catElement, "p"); (catPseudoElement, "first-line")];
            built [(catElement, "a"); (catPseudoElement, "after")]]
           0 1 ">" _ _ catElement "b" eq_refl eq_refl).
Defined.

(** X8: the method [combine] on any receiver appends the combination to the
    text the receiver already has, sets no flag and writes to no other
    object; the receiver may be one of the operands, whose text is then the
    one from before the call. *)
Theorem combine_appends_to_receiver (h : Heap) (this s1 s2 : ref) (k : string)
    (b b1 b2 : Builder) :
  h !! this = Some b -> h !! s1 = Some b1 -> h !! s2 = Some b2 ->
  exists b' : Builder,
    Builder.combine this s1 k s2 h = (Normal this, <[this := b']> h)
    /\ selectorString b'
       = selectorString b +:+
           (selectorString b1 +:+ " " +:+ k +:+ " " +:+ selectorString b2)
    /\ (forall c : Category, flag c b' = flag c b)
    /\ (forall o : ref, o <> this -> <[this := b']> h !! o = h !! o).
Proof.
  intros H H1 H2. eexists. split; [exact (Builder_combine_spec _ _ _ k _ _ _ _ H H1 H2)|].
  split; [reflexivity|]. split.
  - intros c. apply flag_text.
  - intros o Ho. apply list_lookup_insert_ne. congruence.
Qed.

(** The receiver is also the left operand. *)
Lemma combine_appends_to_receiver_witness :
  exists b' : Builder,
    Builder.combine 0 0 "+" 1
      [built [(catElement, "a")]; built [(catElement, "b")]]
    = (Normal 0,
       <[0 := b']> [built [(catElement, "a")]; built [(catElement, "b")]])
    /\ selectorString b' = "aa + b"
    /\ (forall c : Category, flag c b' = flag c (built [(catElement, "a")]))
    /\ (forall o : ref, o <> 0 ->
          <[0 := b']> [built [(catElement, "a")]; built [(catElement, "b")]]
            !! o
          = [built [(catElement, "a")]; built [(catElement, "b")]] !! o).
Proof.
  exact (combine_appends_to_receiver
           [built [(catElement, "a")]; built [(catElement, "b")]]
           0 0 1 "+" _ _ _ eq_refl eq_refl eq_refl).
Defined.

(** X9: combinations nest without brackets: combining [a] with the
    combination of [b] and [c] renders the same text as combining the
    combination of [a] and [b] with [c]. *)
Theorem combine_is_associative (h : Heap) (a b c : ref) (k1 k2 : string)
    (sa sb sc : Builder) :
  h !! a = Some sa -> h !! b = Some sb -> h !! c = Some sc ->
  fst (combine_right a k1 b k2 c h)
  = Normal (selectorString sa +:+ " " +:+ k1 +:+ " " +:+ selectorString sb
              +:+ " " +:+ k2 +:+ " " +:+ selectorString sc)
  /\ fst (combine_left a k1 b k2 c h) = fst (combine_right a k1 b k2 c h).
Proof.
  intros Ha Hb Hc.
  assert (R : fst (combine_right a k1 b k2 c h)
    = Normal (selectorString sa +:+ " " +:+ k1 +:+ " " +:+ selectorString sb
                +:+ " " +:+ k2 +:+ " " +:+ selectorString sc)).
  { unfold combine_right. unfold bind at 1.
    rewrite (combine_spec b c k2 h sb sc Hb Hc).
    unfold bind at 1.
    rewrite (combine_spec a (List.length h) k1 _ sa _
               (lookup_app_l_Some _ _ _ _ Ha) (lookup_new h _)).
    now rewrite (stringify_spec _ _ _ (lookup_new _ _)). }
  split; [exact R|]. rewrite R.
  unfold combine_left. unfold bind at 1.
  rewrite (combine_spec a b k1 h sa sb Ha Hb).
  unfold bind at 1.
  rewrite (combine_spec (List.length h) c k2 _ _ sc
             (lookup_new h _) (lookup_app_l_Some _ _ _ _ Hc)).
  rewrite (stringify_spec _ _ _ (lookup_new _ _)). cbn [fst selectorString
    set_selectorString].
  now rewrite !append_assoc.
Qed.

Lemma combine_is_associative_witness :
  fst (combine_right 0 "+" 1 "~" 2
         [built [(catElement, "div")]; built [(catElement, "table")];
          built [(catElement, "tr")]])
  = Normal "div + table ~ tr"
  /\ fst (combine_left 0 "+" 1 "~" 2
            [built [(catElement, "div")]; built [(catElement, "table")];
             built [(catElement, "tr")]])
     = fst (combine_right 0 "+" 1 "~" 2
              [built [(catElement, "div")]; built [(catElement, "table")];
               built [(catElement, "tr")]]).
Proof.
  exact (combine_is_associative
           [built [(catElement, "div")]; built [(catElement, "table")];
            built [(catElement, "tr")]] 0 1 2 "+" "~" _ _ _
           eq_refl eq_refl eq_refl).
Defined.

(** X10: [combine] reads the text its operands hold at the call: an operand
    on which [stringify()] was called before contributes the empty text. *)
Theorem stringified_operand_is_empty (h : Heap) (a b : ref) (k : string)
    (sa sb : Builder) :
  h !! a = Some sa -> h !! b = Some sb ->
  fst (stringify_then_combine a k b h)
  = Normal (" " +:+ k +:+ " " +:+
              (if Nat.eqb a b then "" else selectorString sb)).
Proof.
  intros Ha Hb. unfold stringify_then_combine. unfold bind at 1.
  rewrite (stringify_spec _ _ _ Ha). unfold bind at 1.
  pose proof (lookup_store a (set_selectorString "" sa) h sa Ha) as Ha'.
  destruct (Nat.eqb_spec a b) as [<-|N].
  - rewrite (combine_spec a a k _ _ _ Ha' Ha').
    now rewrite (stringify_spec _ _ _ (lookup_new _ _)).
  - assert (Hb' : <[a := set_selectorString "" sa]> h !! b = Some sb)
      by (now rewrite list_lookup_insert_ne).
    rewrite (combine_spec a b k _ _ _ Ha' Hb').
    now rewrite (stringify_spec _ _ _ (lookup_new _ _)).
Qed.

Lemma stringified_operand_is_empty_witness :
  fst (stringify_then_combine 0 "+" 1
         [built [(catElement, "div")]; built [(catElement, "span")]])
  = Normal " + span".
Proof.
  exact (stringified_operand_is_empty
           [built [(catElement, "div")]; built [(catElement, "span")]]
           0 1 "+" _ _ eq_refl eq_refl).
Defined.

Lemma logged_accepted (op : operation) (h : Heap) (g : Log) :
  agrees h g -> accepted_logs g ->
  accepted_logs (logged op (fst (perform op h)) g).
Proof.
  intros A F. destruct op as [c v|this c v|s1 k s2|this s1 k s2|this];
    cbn [perform logged]; try assumption.
  - apply Forall_app. split; [assumption|].
    constructor; [|constructor].
    destruct (fst _); [now destruct c|reflexivity].
  - destruct (g !! this) as [l|] eqn:G; [|assumption].
    destruct (agrees_log _ _ _ _ A G) as [text H].
    rewrite (method_of_flagged _ _ c v _ _ H).
    destruct (Watermark.legal (tracked l) c) eqn:L; cbn; [|assumption].
    apply Forall_insert; [assumption|].
    rewrite accepts_snoc. fold (tracked l). rewrite L, andb_true_r.
    exact (proj1 (Forall_lookup _ _) F _ _ G).
  - apply Forall_app. split; [assumption|]. now repeat constructor.
Qed.

Lemma session_accepted (ops : list operation) (h : Heap) (g : Log) :
  agrees h g -> accepted_logs g ->
  agrees (fst (session ops h g)) (snd (session ops h g))
  /\ accepted_logs (snd (session ops h g)).
Proof.
  revert h g. induction ops as [|op ops IH]; intros h g A F; [now split|].
  cbn [session]. pose proof (perform_agrees op h g A) as A'.
  pose proof (logged_accepted op h g A F) as F'.
  destruct (perform op h) as [returned h']. now apply IH.
Qed.

(** X11: in any session, whatever calls were made and whichever of them
    threw, the fragments that were appended to any one object follow the
    grammar element? id? class* attribute* pseudoClass* pseudoElement?, and
    the flags of the object are set for exactly their categories. *)
Theorem appended_fragments_follow_the_grammar (ops : list operation)
    (h : Heap) (g : Log) (r : ref) (l : list Category) :
  session ops [] [] = (h, g) -> g !! r = Some l ->
  (exists (e i : bool) (nc na np : nat) (pe : bool),
      l = Watermark.in_grammar_order e i nc na np pe)
  /\ exists b : Builder,
       h !! r = Some b /\ forall c : Category, flag c b = appended c l.
Proof.
  intros E G.
  assert (A : agrees [] []) by constructor.
  assert (F : accepted_logs []) by constructor.
  destruct (session_accepted ops [] [] A F) as [A' F'].
  rewrite E in A', F'. cbn [fst snd] in *. split.
  - apply respects_order_iff_grammar. rewrite respects_order_accepts.
    exact (proj1 (Forall_lookup _ _) F' _ _ G).
  - destruct (agrees_log _ _ _ _ A' G) as [text H].
    exists (flagged l text). split; [assumption|].
    intros c. destruct c; cbn; try reflexivity.
    now destruct (appended catId l).
Qed.

(** Two objects; on the first, an append that is refused between two that
    are not, and a [stringify()]. *)
Lemma appended_fragments_follow_the_grammar_witness :
  (exists (e i : bool) (nc na np : nat) (pe : bool),
      [catId; catClass; catClass]
      = Watermark.in_grammar_order e i nc na np pe)
  /\ exists b : Builder,
       fst (session [Start catId "x"; Append 0 catClass "c";
                     Start catElement "p"; Append 0 catElement "late";
                     Stringify 0; Append 0 catClass "d"] [] []) !! 0
       = Some b
       /\ forall c : Category,
            flag c b = appended c [catId; catClass; catClass].
Proof.
  exact (appended_fragments_follow_the_grammar
           [Start catId "x"; Append 0 catClass "c"; Start catElement "p";
            Append 0 catElement "late"; Stringify 0; Append 0 catClass "d"]
           _ _ 0 _ eq_refl eq_refl).
Defined.

(** X12: a chain, whether it returns or throws, makes exactly one new
    object and writes to no object that existed before it. *)
Theorem chain_writes_new_object_only (h : Heap) (first : call)
    (rest : list call) :
  exists b : Builder, snd (chain first rest h) = h ++ [b].
Proof.
  rewrite chain_appends.
  destruct (appends_heap (first :: rest) (List.length h) (h ++ [built []]) _
              (lookup_new h _)) as [b E].
  exists b. now rewrite E, insert_new.
Qed.

(** X16: in any session an append call throws for two reasons only: with
    DuplicateError, and then the category is element, id or pseudoElement and
    was appended to the object before; or with OrderError, and then a
    strictly later category was appended to it before. *)
Theorem append_errors_have_a_cause (ops : list operation) (h : Heap) (g : Log)
    (r : ref) (l : list Category) (c : Category) (v : string) (e : exn) :
  session ops [] [] = (h, g) -> g !! r = Some l ->
  fst (method_of c r v h) = Throw e ->
  (e = DuplicateError /\ Watermark.at_most_one c = true
   /\ appended c l = true)
  \/ (e = OrderError /\ Watermark.some_later c l = true
      /\ appended c l && Watermark.at_most_one c = false).
Proof.
  intros E G T.
  destruct (session_method_of ops h g r l c v E G) as (text & _ & M).
  rewrite M, legal_tracked, none_later_some_later in T. clear M.
  destruct (Watermark.at_most_one c) eqn:Hc, (appended c l) eqn:Ha,
    (Watermark.some_later c l) eqn:Hl; cbn in T;
    try discriminate T; injection T as <-; auto.
Qed.

Lemma append_errors_have_a_cause_witness :
  (OrderError = DuplicateError /\ Watermark.at_most_one catId = true
   /\ appended catId [catClass] = true)
  \/ (OrderError = OrderError /\ Watermark.some_later catId [catClass] = true
      /\ appended catId [catClass] && Watermark.at_most_one catId = false).
Proof.
  exact (append_errors_have_a_cause [Start catClass "c"] _ _ 0 _ catId "x" _
           eq_refl eq_refl eq_refl).
Defined.

(** * Further properties of the JSON bridge *)

Section BridgeFailures.
Context {num fn : Type} `{JSON num}.

(** X13: [fromJSON] throws in two cases only: the parser threw, and the
    error is the parser's; or the text is JSON for null, on which
    [Object.setPrototypeOf] throws a TypeError.  Text for any other value,
    object or not, makes it return. *)
Theorem fromJSON_failures (proto : prototype num fn) (json : jsstring)
    (e : exn) :
  fromJSON proto json = Throw e
  <-> JSON_parse json = Throw e
      \/ (JSON_parse json = Normal VNull /\ e = TypeError).
Proof.
  unfold fromJSON. destruct (JSON_parse json) as [v|e'].
  - destruct v; cbn; split;
      try (intros [E|[E ->]]; [discriminate E|]);
      try discriminate; try reflexivity.
    + intros E. right. split; [reflexivity|]. now injection E.
  - split.
    + intros E. left. now injection E as ->.
    + intros [E|[E _]]; [now injection E as ->|discriminate E].
Qed.

End BridgeFailures.

Section BridgeRoundTrip.
Import Json.
Context {num fn : Type} `{Host num}.


(** X18: [fromJSON] throws a SyntaxError on the texts that the JSON grammar
    does not derive, and on no other text. *)
Theorem fromJSON_SyntaxError_iff (proto : prototype num fn) (json : jsstring) :
  fromJSON proto json = Throw SyntaxError <-> ~ valid_json json.
Proof.
  unfold fromJSON. change (JSON_parse json) with (parse json). split.
  - intros E [v V]%parse_complete. rewrite V in E.
    destruct v; discriminate E.
  - intros N. now rewrite (parse_invalid json N).
Qed.

End BridgeRoundTrip.

Section BridgeNumbers.
Import Json SpecFloat Binary64.
Local Open Scope N_scope.


(** X19: numbers that JSON does not represent come back changed: the
    negative zero as zero, NaN and the infinities as null. *)
Theorem unrepresented_numbers_change :
  fromJSON (fn := unit) [(js "getArea", Method tt)]
    (getJSON (VArr [VNum (S754_zero true); VNum S754_nan;
                    VNum (S754_infinity false); VNum (S754_infinity true)]))
  = Normal (mkInstance
              (VArr [VNum (S754_zero false); VNull; VNull; VNull])
              (Some [(js "getArea", Method tt)])).
Proof. vm_compute. reflexivity. Qed.

(** X20: what the call of JSON.parse in [fromJSON] makes of some texts.
    White space, a fraction and an exponent are read; escape sequences
    stand for their code units, and a TAB that is not escaped is refused
    in a string; a key that comes again keeps its place and takes the last
    value; the keys that are array indices come first, in ascending order;
    an integer beyond 2^53 is rounded to a double; a comma before the
    bracket, a leading zero, a missing integer part and a missing comma
    are refused. *)
Theorem JSON_parse_examples :
  JSON_parse (js " [1 , 2.5e3,true , null ] ")
  = Normal (VArr [VNum (of_nat 1); VNum (of_nat 2500); VBool true; VNull])
  /\ JSON_parse (num := spec_float) (34 :: js "\u0041\t\\" ++ [34])
     = Normal (VStr [65; 9; 92])
  /\ JSON_parse (num := spec_float) [34; 9; 34] = Throw SyntaxError
  /\ JSON_parse (js "{" ++ quote (js "a") ++ js ":1," ++ quote (js "b")
                 ++ js ":2," ++ quote (js "a") ++ js ":3}")
     = Normal (VObj [(js "a", VNum (of_nat 3)); (js "b", VNum (of_nat 2))])
  /\ JSON_parse (js "{" ++ quote (js "b") ++ js ":1," ++ quote (js "10")
                 ++ js ":2," ++ quote (js "9") ++ js ":3}")
     = Normal (VObj [(js "9", VNum (of_nat 3)); (js "10", VNum (of_nat 2));
                     (js "b", VNum (of_nat 1))])
  /\ JSON_parse (num := spec_float) (js "9007199254740993")
     = JSON_parse (js "9007199254740992")
  /\ JSON_parse (num := spec_float) (js "[1,]") = Throw SyntaxError
  /\ JSON_parse (num := spec_float) (js "01") = Throw SyntaxError
  /\ JSON_parse (num := spec_float) (js ".5") = Throw SyntaxError
  /\ JSON_parse (num := spec_float) (js "[1 2]") = Throw SyntaxError.
Proof. repeat split; vm_compute; reflexivity. Qed.

(** X21: the texts [getJSON] gives.  The object of its documentation; a
    string with a quotation mark, a reverse solidus and a line feed, which
    are escaped; a surrogate pair, which stands for itself, and a lone
    surrogate, which is escaped; a tenth; ten to the 21, the first power
    of ten written with an exponent. *)
Theorem getJSON_examples :
  getJSON (VObj [(js "height", VNum (of_nat 10));
                 (js "width", VNum (of_nat 20))])
  = js "{" ++ quote (js "height") ++ js ":10," ++ quote (js "width")
    ++ js ":20}"
  /\ quote (js "height") = 34 :: js "height" ++ [34]
  /\ getJSON (num := spec_float) (VStr [97; 34; 92; 10])
     = [34; 97; 92; 34; 92; 92; 92; 110; 34]
  /\ getJSON (num := spec_float) (VStr [55357; 56832])
     = [34; 55357; 56832; 34]
  /\ getJSON (num := spec_float) (VStr [55357]) = 34 :: js "\ud83d" ++ [34]
  /\ getJSON (VNum (of_literal (js "0.1"))) = js "0.1"
  /\ getJSON (VNum (of_literal (js "100000000000000000000")))
     = js "100000000000000000000"
  /\ getJSON (VNum (of_literal (js "1000000000000000000000")))
     = js "1e+21".
Proof. repeat split; vm_compute; reflexivity. Qed.

End BridgeNumbers.

(** * Properties of Rectangle *)

Lemma alter_new {A : Type} (f : A -> A) (l : list A) (x : A) :
  alter f (List.length l) (l ++ [x]) = l ++ [f x].
Proof.
  replace (List.length l) with (List.length l + 0) by lia.
  now rewrite alter_app_r.
Qed.

Section RectangleFacts.
Context {number : Type} (times : number -> number -> number) (NaN : number).

Local Abbreviation new := (Rectangle.new number).
Local Abbreviation call_getArea := (Rectangle.call_getArea number times NaN).
Local Abbreviation write := (Rectangle.write number).
Local Abbreviation borrow_getArea := (Rectangle.borrow_getArea number).
Local Abbreviation set_width := (Rectangle.set_width number).
Local Abbreviation set_height := (Rectangle.set_height number).

(** The constructor: one new object at the end of the heap, with the three
    properties. *)
Lemma Rectangle_new_spec (w h : number) (hp : list (Rectangle.object number)) :
  new w h hp
  = (List.length hp,
     hp ++ [Rectangle.mk number (Some w) (Some h)
              (Some (Rectangle.AreaOf (List.length hp)))]).
Proof.
  unfold Rectangle.new, Rectangle.write. now rewrite !alter_new.
Qed.

(** X14: [getArea()] is computed at each call from the fields the rectangle
    has then: right after [new Rectangle(w, h)] it is the product of [w] and
    [h], and after writes to [width] and [height] it is the product of the
    values written; the constructor changes no object that existed. *)
Theorem getArea_follows_the_fields (hp : list (Rectangle.object number))
    (w h w' h' : number) :
  exists o : Rectangle.object number,
    new w h hp = (List.length hp, hp ++ [o])
    /\ call_getArea (List.length hp) (hp ++ [o]) = Some (times w h)
    /\ call_getArea (List.length hp)
         (write (List.length hp) (set_width w') (hp ++ [o]))
       = Some (times w' h)
    /\ call_getArea (List.length hp)
         (write (List.length hp) (set_height h')
            (write (List.length hp) (set_width w') (hp ++ [o])))
       = Some (times w' h').
Proof.
  eexists. split; [apply Rectangle_new_spec|].
  unfold Rectangle.call_getArea, Rectangle.area, Rectangle.write.
  rewrite !alter_new, !lookup_new. cbn.
  now rewrite !lookup_new.
Qed.

(** X15: the function at [getArea] stays bound to the rectangle it was
    created on: assigned to the [getArea] of another rectangle and called
    there, it still returns the area of the first, also after the fields of
    the other one are written. *)
Theorem getArea_stays_bound (hp : list (Rectangle.object number))
    (w1 h1 w2 h2 w' : number) :
  let (r1, hp1) := new w1 h1 hp in
  let (r2, hp2) := new w2 h2 hp1 in
  call_getArea r2 hp2 = Some (times w2 h2)
  /\ call_getArea r2 (borrow_getArea r2 r1 hp2) = Some (times w1 h1)
  /\ call_getArea r2 (write r2 (set_width w') (borrow_getArea r2 r1 hp2))
     = Some (times w1 h1).
Proof.
  rewrite !Rectangle_new_spec.
  set (o1 := Rectangle.mk number (Some w1) (Some h1) _).
  set (o2 := Rectangle.mk number (Some w2) (Some h2) _).
  assert (L1 : forall o, ((hp ++ [o1]) ++ [o]) !! List.length hp = Some o1)
    by (intros o; apply lookup_app_l_Some, lookup_new).
  unfold Rectangle.call_getArea, Rectangle.area, Rectangle.borrow_getArea,
    Rectangle.write.
  rewrite L1, !alter_new, !lookup_new. cbn.
  now rewrite !lookup_new, !L1.
Qed.

End RectangleFacts.
